(** * Hycast: chunk layout, codec, peer and multicast receive loops, product store

    A shallow embedding of the parts of Hycast that the specification's
    testable properties talk about:

    - [ChunkInfo] (src/main/prod/ChunkInfo.cpp): constructor, [getSize],
      (de)serialisation and equality;
    - [Peer::Impl] (src/main/comms/p2p/Peer.cpp): handshake and [runReceiver];
    - [McastReceiver::Impl] (src/main/comms/mcast/McastReceiver.cpp);
    - [ProdStore::AddStatus] (src/main/prod/ProdStore.h) and the product store.

    Unsigned machine integers are values of [Z] with the wrap-around written
    out; a C++ exception is the [Throw] case of [result]. *)

From stdpp Require Import gmap list strings pretty.
From Stdlib Require Import ZArith Lia Ascii.

Local Open Scope Z_scope.

(* set_solver clears hypotheses that may already be gone *)
#[local] Set Warnings "-clear-no-such-hyp".

(** ** Exceptions *)

(** The exception classes thrown by the embedded code.  [StdLogicError] is
    [std::logic_error] thrown directly, [LogicError] is hycast's own class. *)
Inductive Exn : Type :=
  | InvalidArgument (what : string)
  | LogicError (what : string)
  | StdLogicError (what : string)
  | RuntimeError (what : string)
  | SystemError (what : string)
  | ShortMessage (what : string).

(** The error kinds of the specification's error-handling section. *)
Inductive ErrorKind : Type :=
  | KInvalidArgument | KOutOfRange | KLogicError | KRuntimeError
  | KSystemError | KUnsupportedVersion | KShortMessage | KCanceled | KShutdown.

(** The kind of an exception, by its class.  UnsupportedVersion has no class
    in the code: the handshake raises it as a LogicError, see
    [Peer.unsupportedVersion]. *)
Definition kindOf (e : Exn) : ErrorKind :=
  match e with
  | InvalidArgument _ => KInvalidArgument
  | LogicError _ => KLogicError
  | StdLogicError _ => KLogicError
  | RuntimeError _ => KRuntimeError
  | SystemError _ => KSystemError
  | ShortMessage _ => KShortMessage
  end.

Inductive result (A : Type) : Type :=
  | OK (a : A)
  | Throw (e : Exn).
Arguments OK {A} a.
Arguments Throw {A} e.

#[global] Instance result_ret : MRet result := fun A a => OK a.
#[global] Instance result_bind : MBind result := fun A B k r =>
  match r with
  | OK a => k a
  | Throw e => Throw e
  end.

Definition throwsKind {A} (r : result A) (k : ErrorKind) : Prop :=
  exists e, r = Throw e /\ kindOf e = k.

(** ** Machine integers *)

Definition wrap16 (z : Z) : Z := z mod 65536.
Definition wrap32 (z : Z) : Z := z mod 4294967296.

Definition isByte (b : Z) : Prop := 0 <= b < 256.
Definition uint16 (z : Z) : Prop := 0 <= z < 65536.
Definition uint32 (z : Z) : Prop := 0 <= z < 4294967296.

(** Mathematical ceiling of [s / c] for [c > 0]. *)
Definition ceilDiv (s c : Z) : Z := (s + c - 1) / c.

(** ** Codec *)

Module Codec.

(** Modelled from the spec: Codec.h ([Encoder], [Decoder]) is not among the
    sources.  The codec section gives the primitive encodings, all in network
    byte order: unsigned 8/16/32 of fixed width, and a string as a 16-bit
    length followed by its bytes; [decode] fails with ShortMessage when the
    message ends early.  An encoder is the message built so far, a decoder
    the unread rest of the current message; a byte is a [Z] in [0, 256). *)
Definition Encoder : Type := list Z.
Definition Decoder : Type := list Z.

(** Each [encode] returns the number of bytes written and the new encoder. *)
Definition encode16 (x : Z) (encoder : Encoder) : Z * Encoder :=
  (2, encoder ++ [x / 256 mod 256; x mod 256]).

Definition encode32 (x : Z) (encoder : Encoder) : Z * Encoder :=
  (4, encoder ++ [x / 16777216 mod 256; x / 65536 mod 256;
                  x / 256 mod 256; x mod 256]).

Definition byteOfAscii (a : ascii) : Z := Z.of_N (N_of_ascii a).
Definition asciiOfByte (b : Z) : ascii := ascii_of_N (Z.to_N b).

Definition encodeString (str : string) (encoder : Encoder) : Z * Encoder :=
  let chars := byteOfAscii <$> String.list_ascii_of_string str in
  let '(n, encoder) := encode16 (Z.of_nat (length chars)) encoder in
  (n + Z.of_nat (length chars), encoder ++ chars).

Definition decode8 (decoder : Decoder) : result (Z * Decoder) :=
  match decoder with
  | b0 :: rest => OK (b0, rest)
  | _ => Throw (ShortMessage "Message is too short")
  end.

Definition decode16 (decoder : Decoder) : result (Z * Decoder) :=
  match decoder with
  | b0 :: b1 :: rest => OK (b0 * 256 + b1, rest)
  | _ => Throw (ShortMessage "Message is too short")
  end.

Definition decode32 (decoder : Decoder) : result (Z * Decoder) :=
  match decoder with
  | b0 :: b1 :: b2 :: b3 :: rest =>
      OK (((b0 * 256 + b1) * 256 + b2) * 256 + b3, rest)
  | _ => Throw (ShortMessage "Message is too short")
  end.

Definition decodeString (decoder : Decoder) : result (string * Decoder) :=
  '(len, decoder) ← decode16 decoder;
  if Z.of_nat (length decoder) <? len
  then Throw (ShortMessage "Message is too short")
  else OK (String.string_of_list_ascii (asciiOfByte <$> take (Z.to_nat len) decoder),
           drop (Z.to_nat len) decoder).

End Codec.

(** ** ProdIndex and VersionMsg *)

Module ProdIndex.

(** Modelled from the spec: ProdIndex.cpp is not among the sources.  A product
    index is an unsigned 32-bit identifier, serialised as 4 bytes; the
    protocol version is threaded through and ignored. *)
Definition t : Type := Z.

Definition serialize (index : t) (encoder : Codec.Encoder) (version : Z)
  : Z * Codec.Encoder :=
  Codec.encode32 index encoder.

Definition deserialize (decoder : Codec.Decoder) (version : Z)
  : result (t * Codec.Decoder) :=
  Codec.decode32 decoder.

Definition eqb (index that : t) : bool := index =? that.

(** Modelled from the spec: [operator<] is defined in ProdIndex.h, which is
    not among the sources.  The data model gives product indexes wrap-around
    comparison, "a < b iff (b - a) fits in 2^31": the 32-bit difference
    [that - index] is not zero and is below 2^31. *)
Definition ltb (index that : t) : bool :=
  let diff := wrap32 (that - index) in
  (0 <? diff) && (diff <? 2147483648).

End ProdIndex.

Module VersionMsg.

(** Modelled from the spec: VersionMsg.cpp is not among the sources.  Stream 0
    carries "VersionMsg = uint32 version". *)
Record t : Type := mk { getVersion : Z }.

Definition serialize (msg : t) (encoder : Codec.Encoder) (version : Z)
  : Z * Codec.Encoder :=
  Codec.encode32 (getVersion msg) encoder.

Definition deserialize (decoder : Codec.Decoder) (version : Z)
  : result (t * Codec.Decoder) :=
  '(vers, decoder) ← Codec.decode32 decoder;
  mret (mk vers, decoder).

Definition eqb (msg that : t) : bool := getVersion msg =? getVersion that.

End VersionMsg.

Module ProdInfo.

(** Modelled from the spec: ProdInfo.cpp is not among the sources.  A ProdInfo
    is (ProdIndex, name of at most 65535 bytes, ProdSize, canonical ChunkSize
    of this product), serialised as name (2+n), ProdIndex (4), ProdSize (4),
    chunk size (2); its chunk count is the ceiling of size / chunk size. *)
Record t : Type := mk {
  getName : string;
  getIndex : Z;
  getSize : Z;
  getChunkSize : Z
}.

Definition wf (info : t) : Prop :=
  Z.of_nat (String.length (getName info)) <= 65535
  /\ uint32 (getIndex info) /\ uint32 (getSize info)
  /\ uint16 (getChunkSize info).

Definition getNumChunks (info : t) : Z :=
  if getChunkSize info =? 0 then 0
  else ceilDiv (getSize info) (getChunkSize info).

Definition serialize (info : t) (encoder : Codec.Encoder) (version : Z)
  : Z * Codec.Encoder :=
  let '(n1, encoder) := Codec.encodeString (getName info) encoder in
  let '(n2, encoder) := ProdIndex.serialize (getIndex info) encoder version in
  let '(n3, encoder) := Codec.encode32 (getSize info) encoder in
  let '(n4, encoder) := Codec.encode16 (getChunkSize info) encoder in
  (n1 + n2 + n3 + n4, encoder).

Definition deserialize (decoder : Codec.Decoder) (version : Z)
  : result (t * Codec.Decoder) :=
  '(name, decoder) ← Codec.decodeString decoder;
  '(index, decoder) ← ProdIndex.deserialize decoder version;
  '(size, decoder) ← Codec.decode32 decoder;
  '(chunkSize, decoder) ← Codec.decode16 decoder;
  mret (mk name index size chunkSize, decoder).

Definition eqb (info that : t) : bool :=
  String.eqb (getName info) (getName that)
  && (getIndex info =? getIndex that) && (getSize info =? getSize that)
  && (getChunkSize info =? getChunkSize that).

End ProdInfo.

(** ** ChunkInfo *)

Module ChunkInfo.

(** [ProdIndex], [ProdSize] and [ChunkIndex] are unsigned 32-bit,
    [ChunkSize] is unsigned 16-bit.  The atomic [hashCode] cache is not part
    of a chunk-information's value and is left out. *)
Record t : Type := mk {
  prodIndex : Z;
  prodSize : Z;
  chunkIndex : Z
}.

(** [static ChunkSize canonSize = 32768 - 8;] -- the process-wide canonical
    chunk size is passed explicitly as [canonSize] below. *)
Definition initialCanonSize : Z := 32768 - 8.

(** [setCanonSize]: returns the new value of the global. *)
Definition setCanonSize (size : Z) : result Z :=
  if size =? 0
  then Throw (InvalidArgument "Cannot set canonical chunk size to zero")
  else OK size.

Definition getCanonSize (canonSize : Z) : Z := canonSize.

(** The values the global can hold: a non-zero [ChunkSize]. *)
Definition canonOk (canonSize : Z) : Prop := 0 < canonSize < 65536.

(** [numChunks] as the constructor computes it.  [prodSize] is 32-bit
    unsigned and the canonical size is promoted to [int], so the sum, the
    decrement and the quotient are taken in 32-bit unsigned arithmetic. *)
Definition numChunks (canonSize prodSize : Z) : Z :=
  wrap32 (wrap32 (prodSize + getCanonSize canonSize) - 1)
    / getCanonSize canonSize.

(** [ChunkInfo::ChunkInfo(prodIndex, prodSize, chunkIndex)] *)
Definition ctor (canonSize prodIndex prodSize chunkIndex : Z) : result t :=
  let numChunks := numChunks canonSize prodSize in
  if negb (chunkIndex =? 0) && (chunkIndex >=? numChunks)
  then Throw (InvalidArgument
         ("Chunk-index is greater than or equal to number of chunks: index="
          +:+ pretty chunkIndex +:+ ", numChunks=" +:+ pretty numChunks))
  else OK (mk prodIndex prodSize chunkIndex).

(** [ChunkInfo::ChunkInfo()]: information on no chunk. *)
Definition default : t := mk 0 0 0.

(** [ChunkInfo::operator bool] *)
Definition toBool (canonSize : Z) (ci : t) : bool :=
  negb (prodSize ci =? 0) && negb (canonSize =? 0).

(** [ChunkInfo::isEarlierThan], with ProdIndex's [operator<] as [ltIndex]. *)
Definition isEarlierThanBy (ltIndex : Z -> Z -> bool) (ci rhs : t) : bool :=
  ltIndex (prodIndex ci) (prodIndex rhs)
  || ((prodIndex ci =? prodIndex rhs) && (chunkIndex ci <? chunkIndex rhs)).

(** [ChunkInfo::isEarlierThan] *)
Definition isEarlierThan (ci rhs : t) : bool :=
  isEarlierThanBy ProdIndex.ltb ci rhs.

(** Modelled from the spec: [getOffset] is declared in ChunkInfo.h, which is
    not among the sources; the data model gives
    "byte offset = ChunkIndex x canonicalChunkSize".  Its operands are a
    32-bit [ChunkIndex] and a 16-bit [ChunkSize]: the product is a 32-bit
    unsigned one and wraps around, like [remaining] in [getSize]. *)
Definition getOffset (canonSize chunkIndex : Z) : Z :=
  wrap32 (chunkIndex * getCanonSize canonSize).

(** [ChunkInfo::getSize(prodSize, chunkIndex)].  [remaining] is a 32-bit
    unsigned difference and the result is converted to [ChunkSize]. *)
Definition getSize (canonSize prodSize chunkIndex : Z) : result Z :=
  let offset := getOffset canonSize chunkIndex in
  if offset >=? prodSize
  then Throw (InvalidArgument
         ("Chunk-offset is greater than or equal to product-size: offset="
          +:+ pretty offset +:+ ", size=" +:+ pretty prodSize
          +:+ ", chunkIndex=" +:+ pretty chunkIndex))
  else
    let remaining := wrap32 (prodSize - offset) in
    let canonSize := getCanonSize canonSize in
    OK (wrap16 (if canonSize <? remaining then canonSize else remaining)).

(** [ChunkInfo::ChunkInfo(Decoder&, version)]: starts from the default
    instance and assigns the three decoded fields. *)
Definition ofDecoder (decoder : Codec.Decoder) (version : Z)
  : result (t * Codec.Decoder) :=
  '(prodIndex, decoder) ← ProdIndex.deserialize decoder version;
  '(prodSize, decoder) ← Codec.decode32 decoder;
  '(chunkIndex, decoder) ← Codec.decode32 decoder;
  mret (mk prodIndex prodSize chunkIndex, decoder).

(** [ChunkInfo::serialize]: the three [encode] calls, in the order of the
    sum's operands. *)
Definition serialize (ci : t) (encoder : Codec.Encoder) (version : Z)
  : Z * Codec.Encoder :=
  let '(n1, encoder) := ProdIndex.serialize (prodIndex ci) encoder version in
  let '(n2, encoder) := Codec.encode32 (prodSize ci) encoder in
  let '(n3, encoder) := Codec.encode32 (chunkIndex ci) encoder in
  (n1 + n2 + n3, encoder).

(** [ChunkInfo::deserialize]: decodes, then re-constructs through the
    validating constructor. *)
Definition deserialize (canonSize : Z) (decoder : Codec.Decoder) (version : Z)
  : result (t * Codec.Decoder) :=
  '(chunkInfo, decoder) ← ofDecoder decoder version;
  ci ← ctor canonSize (prodIndex chunkInfo) (prodSize chunkInfo)
         (chunkIndex chunkInfo);
  mret (ci, decoder).

(** [ChunkInfo::operator==] *)
Definition eqb (ci that : t) : bool :=
  (prodIndex ci =? prodIndex that) && (prodSize ci =? prodSize that)
  && (chunkIndex ci =? chunkIndex that).

(** The size of a chunk when [getSize] returns, [0] when it throws. *)
Definition sizeOr0 (canonSize prodSize chunkIndex : Z) : Z :=
  match getSize canonSize prodSize chunkIndex with
  | OK n => n
  | Throw _ => 0
  end.

(** Sum of the sizes of the first [n] chunks of a product. *)
Fixpoint sumSizes (canonSize prodSize : Z) (n : nat) : Z :=
  match n with
  | O => 0
  | S k => sumSizes canonSize prodSize k
           + sizeOr0 canonSize prodSize (Z.of_nat k)
  end.

(** The global after a sequence of [setCanonSize] calls; a call that throws
    leaves it as it was. *)
Fixpoint setCanonSizes (sizes : list Z) (canonSize : Z) : Z :=
  match sizes with
  | [] => canonSize
  | size :: sizes =>
      match setCanonSize size with
      | OK canonSize => setCanonSizes sizes canonSize
      | Throw _ => setCanonSizes sizes canonSize
      end
  end.

End ChunkInfo.

(** ** The multi-stream transport *)

Module SctpSock.

(** Modelled from the spec: only the declaration (SctpSock.h) is among the
    sources.  The transport is message-preserving and ordered; [getSize] and
    [getStreamId] wait for the head message and leave it in the input buffer
    as the current message, [getSize] is 0 when the remote peer has closed,
    [recv] and [discard] consume the current message.  Input that has not
    been looked at yet is [pending]; the end of [pending] is the remote
    peer's close. *)
Record Msg : Type := mkMsg { streamId : Z; data : list Z }.

Record t : Type := mk {
  current : option Msg;
  pending : list Msg;
  sent : list Msg
}.

Definition peek (sock : t) : t :=
  match current sock, pending sock with
  | None, m :: rest => mk (Some m) rest (sent sock)
  | _, _ => sock
  end.

Definition getSize (sock : t) : Z * t :=
  let sock := peek sock in
  match current sock with
  | Some m => (wrap32 (Z.of_nat (length (data m))), sock)
  | None => (0, sock)
  end.

Definition getStreamId (sock : t) : result (Z * t) :=
  let sock := peek sock in
  match current sock with
  | Some m => OK (streamId m, sock)
  | None => Throw (SystemError "Couldn't peek at message")
  end.

Definition hasMessage (sock : t) : bool :=
  match current sock with Some _ => true | None => false end.

Definition discard (sock : t) : t := mk None (pending sock) (sent sock).

Definition send (streamId : Z) (msg : list Z) (sock : t) : t :=
  mk (current sock) (pending sock) (sent sock ++ [mkMsg streamId msg]).

(** The messages not yet consumed, the current one first. *)
Definition unconsumed (sock : t) : list Msg :=
  match current sock with
  | Some m => m :: pending sock
  | None => pending sock
  end.

(** Number of messages not yet consumed. *)
Definition backlog (sock : t) : nat :=
  (length (pending sock) + if hasMessage sock then 1 else 0)%nat.

End SctpSock.

(** ** Latent chunks *)

Module LatentChunk.

(** Modelled from the spec: Chunk.cpp is not among the sources.  A latent
    chunk is a ChunkInfo plus a pull handle bound to the transport; the
    payload stays in the transport until the single [drainData] or [discard];
    [hasData] probes whether the transport still holds it. *)
Record t : Type := mk { getInfo : ChunkInfo.t; getSize : Z }.

(** What the recipient of a latent chunk did with the handle. *)
Inductive Use : Type := Drained | Discarded | Untouched.

Definition getMetadataSize (version : Z) : Z := 12.

End LatentChunk.

Module ActualChunk.

(** Modelled from the spec: Chunk.cpp is not among the sources.  An actual
    chunk is a ChunkInfo plus the chunk's bytes. *)
Record t : Type := mk { getInfo : ChunkInfo.t; getData : list Z }.

End ActualChunk.

(** ** Channels *)

Module Channel.

(** Modelled from the spec: Channel.h is not among the sources.  A channel is
    a typed wrapper of one stream: [send] serialises through the codec and
    calls the transport's [send]; [recv] deserialises the current message and
    consumes it.  The chunk channel's [recv] decodes the ChunkInfo only and
    leaves the payload in the transport. *)
Definition send {T} (serialize : T -> Codec.Encoder -> Z -> Z * Codec.Encoder)
    (streamId version : Z) (obj : T) (sock : SctpSock.t) : SctpSock.t :=
  SctpSock.send streamId (serialize obj [] version).2 sock.

Definition recv {T} (deserialize : Codec.Decoder -> Z -> result (T * Codec.Decoder))
    (version : Z) (sock : SctpSock.t) : result (T * SctpSock.t) :=
  let sock := SctpSock.peek sock in
  match SctpSock.current sock with
  | None => Throw (SystemError "Couldn't receive message")
  | Some m =>
      '(obj, _) ← deserialize (SctpSock.data m) version;
      mret (obj, SctpSock.discard sock)
  end.

Definition recvChunk (canonSize version : Z) (sock : SctpSock.t)
  : result (LatentChunk.t * SctpSock.t) :=
  let sock := SctpSock.peek sock in
  match SctpSock.current sock with
  | None => Throw (SystemError "Couldn't receive message")
  | Some m =>
      '(info, rest) ← ChunkInfo.deserialize canonSize (SctpSock.data m) version;
      mret (LatentChunk.mk info (Z.of_nat (length rest)), sock)
  end.

(** Modelled from the spec: the chunk channel's [send]; stream 5 carries
    "ChunkInfo followed by chunk bytes". *)
Definition sendChunk (streamId version : Z) (chunk : ActualChunk.t)
    (sock : SctpSock.t) : SctpSock.t :=
  SctpSock.send streamId
    ((ChunkInfo.serialize (ActualChunk.getInfo chunk) [] version).2
     ++ ActualChunk.getData chunk) sock.

End Channel.

(** ** Peer *)

Module Peer.

(** [Peer::Impl::SctpStreamId] *)
Definition VERSION_STREAM_ID : Z := 0.
Definition PROD_NOTICE_STREAM_ID : Z := 1.
Definition CHUNK_NOTICE_STREAM_ID : Z := 2.
Definition PROD_REQ_STREAM_ID : Z := 3.
Definition CHUNK_REQ_STREAM_ID : Z := 4.
Definition CHUNK_STREAM_ID : Z := 5.


(** The upcall interface [PeerMsgRcvr] over an application state [A]; an
    upcall returns the new state or throws.  [recvData] also reports what it
    did with the latent chunk's handle. *)
Record PeerMsgRcvr (A : Type) : Type := mkRcvr {
  recvNoticeProd : ProdInfo.t -> A -> result A;
  recvNoticeChunk : ChunkInfo.t -> A -> result A;
  recvRequestProd : ProdIndex.t -> A -> result A;
  recvRequestChunk : ChunkInfo.t -> A -> result A;
  recvData : LatentChunk.t -> A -> result (A * LatentChunk.Use)
}.
Arguments recvNoticeProd {A} _ _ _.
Arguments recvNoticeChunk {A} _ _ _.
Arguments recvRequestProd {A} _ _ _.
Arguments recvRequestChunk {A} _ _ _.
Arguments recvData {A} _ _ _.

(** The fields of [Peer::Impl] that change: the six channels share [sock] and
    [version]. *)
Record Impl : Type := mkImpl { version : Z; sock : SctpSock.t }.

(** The transport after the recipient used the chunk's handle. *)
Definition afterUse (use : LatentChunk.Use) (sock : SctpSock.t) : SctpSock.t :=
  match use with
  | LatentChunk.Drained | LatentChunk.Discarded => SctpSock.discard sock
  | LatentChunk.Untouched => sock
  end.

(** [LatentChunk::hasData] of a chunk bound to [sock]. *)
Definition hasData (sock : SctpSock.t) : bool := SctpSock.hasMessage sock.

(** [Peer::Impl::getVersion] *)
Definition getVersion (impl : Impl) : result (Z * Impl) :=
  '(sid, sock) ← SctpSock.getStreamId (sock impl);
  if negb (sid =? VERSION_STREAM_ID)
  then Throw (StdLogicError "Current message isn't a version message")
  else
    '(msg, sock) ← Channel.recv VersionMsg.deserialize (version impl) sock;
    mret (VersionMsg.getVersion msg, mkImpl (version impl) sock).

(** [Peer::Impl::Impl(PeerMsgRcvr&, SctpSock&)]: the handshake. *)
Definition ctor (sock : SctpSock.t) : result Impl :=
  let version := 0 in
  let msg := VersionMsg.mk version in
  let sock :=
    Channel.send VersionMsg.serialize VERSION_STREAM_ID version msg sock in
  '(vers, impl) ← getVersion (mkImpl version sock);
  if negb (vers =? version)
  then Throw (LogicError
         ("Remote peer uses unsupported protocol version: " +:+ pretty vers))
  else mret impl.

(** The handshake's failure on a version mismatch, as [ctor] throws it:
    hycast's LogicError, whose text names the remote version.  The code has
    no exception class of its own for this failure; it is the one that the
    specification's list of error kinds calls UnsupportedVersion. *)
Definition unsupportedVersion (vers : Z) : Exn :=
  LogicError
    ("Remote peer uses unsupported protocol version: " +:+ pretty vers).

(** One pass through the body of the [for (;;)] of [runReceiver]. *)
Inductive Step (S : Type) : Type :=
  | Break (s : S)
  | Continue (s : S).
Arguments Break {S} s.
Arguments Continue {S} s.

Definition receiverBody {A} (canonSize : Z) (msgRcvr : PeerMsgRcvr A)
    (st : A * Impl) : result (Step (A * Impl)) :=
  let '(a, impl) := st in
  let v := version impl in
  let '(size, sock) := SctpSock.getSize (sock impl) in
  if size =? 0 then mret (Break (a, mkImpl v sock))
  else
    '(sid, sock) ← SctpSock.getStreamId sock;
    if sid =? PROD_NOTICE_STREAM_ID then
      '(info, sock) ← Channel.recv ProdInfo.deserialize v sock;
      a ← recvNoticeProd msgRcvr info a;
      mret (Continue (a, mkImpl v sock))
    else if sid =? CHUNK_NOTICE_STREAM_ID then
      '(info, sock) ← Channel.recv (ChunkInfo.deserialize canonSize) v sock;
      a ← recvNoticeChunk msgRcvr info a;
      mret (Continue (a, mkImpl v sock))
    else if sid =? PROD_REQ_STREAM_ID then
      '(index, sock) ← Channel.recv ProdIndex.deserialize v sock;
      a ← recvRequestProd msgRcvr index a;
      mret (Continue (a, mkImpl v sock))
    else if sid =? CHUNK_REQ_STREAM_ID then
      '(info, sock) ← Channel.recv (ChunkInfo.deserialize canonSize) v sock;
      a ← recvRequestChunk msgRcvr info a;
      mret (Continue (a, mkImpl v sock))
    else if sid =? CHUNK_STREAM_ID then
      '(chunk, sock) ← Channel.recvChunk canonSize v sock;
      '(a, use) ← recvData msgRcvr chunk a;
      let sock := afterUse use sock in
      if hasData sock
      then Throw (LogicError "Latent chunk-of-data still has data")
      else mret (Continue (a, mkImpl v sock))
    else
      mret (Continue (a, mkImpl v (SctpSock.discard sock))).

(** [Peer::Impl::runReceiver]: [None] when [fuel] passes were not enough. *)
Fixpoint runReceiver {A} (canonSize : Z) (msgRcvr : PeerMsgRcvr A)
    (fuel : nat) (st : A * Impl) : option (result (A * Impl)) :=
  match fuel with
  | O => None
  | S fuel =>
      match receiverBody canonSize msgRcvr st with
      | Throw e => Some (Throw e)
      | OK (Break st) => Some (OK st)
      | OK (Continue st) => runReceiver canonSize msgRcvr fuel st
      end
  end.

(** The upcalls of [PeerMsgRcvr], each with its argument. *)
Inductive Upcall : Type :=
  | RecvNoticeProd (info : ProdInfo.t)
  | RecvNoticeChunk (info : ChunkInfo.t)
  | RecvRequestProd (index : ProdIndex.t)
  | RecvRequestChunk (info : ChunkInfo.t)
  | RecvData (chunk : LatentChunk.t).

(** The body of the [for (;;)] of [runReceiver] once more, now with the
    upcalls that the pass makes: an upcall is recorded when it is made,
    whether it returns or throws. *)
Definition receiverBodyLog {A} (canonSize : Z) (msgRcvr : PeerMsgRcvr A)
    (st : A * Impl) : list Upcall * result (Step (A * Impl)) :=
  let '(a, impl) := st in
  let v := version impl in
  let '(size, sock) := SctpSock.getSize (sock impl) in
  if size =? 0 then ([], mret (Break (a, mkImpl v sock)))
  else
    match SctpSock.getStreamId sock with
    | Throw e => ([], Throw e)
    | OK (sid, sock) =>
        if sid =? PROD_NOTICE_STREAM_ID then
          match Channel.recv ProdInfo.deserialize v sock with
          | Throw e => ([], Throw e)
          | OK (info, sock) =>
              ([RecvNoticeProd info],
               a ← recvNoticeProd msgRcvr info a;
               mret (Continue (a, mkImpl v sock)))
          end
        else if sid =? CHUNK_NOTICE_STREAM_ID then
          match Channel.recv (ChunkInfo.deserialize canonSize) v sock with
          | Throw e => ([], Throw e)
          | OK (info, sock) =>
              ([RecvNoticeChunk info],
               a ← recvNoticeChunk msgRcvr info a;
               mret (Continue (a, mkImpl v sock)))
          end
        else if sid =? PROD_REQ_STREAM_ID then
          match Channel.recv ProdIndex.deserialize v sock with
          | Throw e => ([], Throw e)
          | OK (index, sock) =>
              ([RecvRequestProd index],
               a ← recvRequestProd msgRcvr index a;
               mret (Continue (a, mkImpl v sock)))
          end
        else if sid =? CHUNK_REQ_STREAM_ID then
          match Channel.recv (ChunkInfo.deserialize canonSize) v sock with
          | Throw e => ([], Throw e)
          | OK (info, sock) =>
              ([RecvRequestChunk info],
               a ← recvRequestChunk msgRcvr info a;
               mret (Continue (a, mkImpl v sock)))
          end
        else if sid =? CHUNK_STREAM_ID then
          match Channel.recvChunk canonSize v sock with
          | Throw e => ([], Throw e)
          | OK (chunk, sock) =>
              ([RecvData chunk],
               '(a, use) ← recvData msgRcvr chunk a;
               let sock := afterUse use sock in
               if hasData sock
               then Throw (LogicError "Latent chunk-of-data still has data")
               else mret (Continue (a, mkImpl v sock)))
          end
        else
          ([], mret (Continue (a, mkImpl v (SctpSock.discard sock))))
    end.

(** [Peer::Impl::runReceiver] with the upcalls it has made, in order. *)
Fixpoint runReceiverLog {A} (canonSize : Z) (msgRcvr : PeerMsgRcvr A)
    (fuel : nat) (st : A * Impl)
  : list Upcall * option (result (A * Impl)) :=
  match fuel with
  | O => ([], None)
  | S fuel =>
      let '(log, r) := receiverBodyLog canonSize msgRcvr st in
      match r with
      | Throw e => (log, Some (Throw e))
      | OK (Break st) => (log, Some (OK st))
      | OK (Continue st) =>
          let '(later, r) := runReceiverLog canonSize msgRcvr fuel st in
          (log ++ later, r)
      end
  end.

(** [Peer::Impl::sendProdInfo], [sendChunkInfo], [sendProdRequest],
    [sendRequest] and [sendData]: each sends on its own channel. *)
Definition sendProdInfo (prodInfo : ProdInfo.t) (impl : Impl) : Impl :=
  mkImpl (version impl)
    (Channel.send ProdInfo.serialize PROD_NOTICE_STREAM_ID (version impl)
       prodInfo (sock impl)).

Definition sendChunkInfo (chunkInfo : ChunkInfo.t) (impl : Impl) : Impl :=
  mkImpl (version impl)
    (Channel.send ChunkInfo.serialize CHUNK_NOTICE_STREAM_ID (version impl)
       chunkInfo (sock impl)).

Definition sendProdRequest (prodIndex : ProdIndex.t) (impl : Impl) : Impl :=
  mkImpl (version impl)
    (Channel.send ProdIndex.serialize PROD_REQ_STREAM_ID (version impl)
       prodIndex (sock impl)).

Definition sendRequest (info : ChunkInfo.t) (impl : Impl) : Impl :=
  mkImpl (version impl)
    (Channel.send ChunkInfo.serialize CHUNK_REQ_STREAM_ID (version impl)
       info (sock impl)).

Definition sendData (chunk : ActualChunk.t) (impl : Impl) : Impl :=
  mkImpl (version impl)
    (Channel.sendChunk CHUNK_STREAM_ID (version impl) chunk (sock impl)).

End Peer.

(** The stream layout as the specification states it: what a pass of the
    receive loop is to do with a head message of non-zero size on stream
    [sid], to be compared with [Peer.receiverBody]. *)
Definition dispatched {A} (canonSize : Z) (msgRcvr : Peer.PeerMsgRcvr A)
    (a : A) (v : Z) (sock : SctpSock.t) (sid : Z)
  : result (Peer.Step (A * Peer.Impl)) :=
  if sid =? 1 then
    '(info, sock) ← Channel.recv ProdInfo.deserialize v sock;
    a ← Peer.recvNoticeProd msgRcvr info a;
    mret (Peer.Continue (a, Peer.mkImpl v sock))
  else if sid =? 2 then
    '(info, sock) ← Channel.recv (ChunkInfo.deserialize canonSize) v sock;
    a ← Peer.recvNoticeChunk msgRcvr info a;
    mret (Peer.Continue (a, Peer.mkImpl v sock))
  else if sid =? 3 then
    '(index, sock) ← Channel.recv ProdIndex.deserialize v sock;
    a ← Peer.recvRequestProd msgRcvr index a;
    mret (Peer.Continue (a, Peer.mkImpl v sock))
  else if sid =? 4 then
    '(info, sock) ← Channel.recv (ChunkInfo.deserialize canonSize) v sock;
    a ← Peer.recvRequestChunk msgRcvr info a;
    mret (Peer.Continue (a, Peer.mkImpl v sock))
  else if sid =? 5 then
    '(chunk, sock) ← Channel.recvChunk canonSize v sock;
    '(a, use) ← Peer.recvData msgRcvr chunk a;
    if Peer.hasData (Peer.afterUse use sock)
    then Throw (LogicError "Latent chunk-of-data still has data")
    else mret (Peer.Continue (a, Peer.mkImpl v (Peer.afterUse use sock)))
  else
    mret (Peer.Continue (a, Peer.mkImpl v (SctpSock.discard sock))).

(** ** Transmission between two peers *)

Module Transmission.

(** What the application of one peer sends: the five send calls of [Peer]. *)
Inductive PeerMsg : Type :=
  | ProdNotice (info : ProdInfo.t)
  | ChunkNotice (info : ChunkInfo.t)
  | ProdRequest (index : ProdIndex.t)
  | ChunkRequest (info : ChunkInfo.t)
  | Data (chunk : ActualChunk.t).

Definition send (msg : PeerMsg) (impl : Peer.Impl) : Peer.Impl :=
  match msg with
  | ProdNotice info => Peer.sendProdInfo info impl
  | ChunkNotice info => Peer.sendChunkInfo info impl
  | ProdRequest index => Peer.sendProdRequest index impl
  | ChunkRequest info => Peer.sendRequest info impl
  | Data chunk => Peer.sendData chunk impl
  end.

Definition sendAll (msgs : list PeerMsg) (impl : Peer.Impl) : Peer.Impl :=
  foldl (fun impl msg => send msg impl) impl msgs.

(** The upcall that corresponds to a message; for a chunk, the latent chunk
    carries the chunk's information and the size of its payload. *)
Definition deliver {A} (msgRcvr : Peer.PeerMsgRcvr A) (msg : PeerMsg) (a : A)
  : result A :=
  match msg with
  | ProdNotice info => Peer.recvNoticeProd msgRcvr info a
  | ChunkNotice info => Peer.recvNoticeChunk msgRcvr info a
  | ProdRequest index => Peer.recvRequestProd msgRcvr index a
  | ChunkRequest info => Peer.recvRequestChunk msgRcvr info a
  | Data chunk =>
      '(a, _) ← Peer.recvData msgRcvr
                  (LatentChunk.mk (ActualChunk.getInfo chunk)
                     (Z.of_nat (length (ActualChunk.getData chunk)))) a;
      mret a
  end.

Fixpoint deliverAll {A} (msgRcvr : Peer.PeerMsgRcvr A) (msgs : list PeerMsg)
    (a : A) : result A :=
  match msgs with
  | [] => mret a
  | msg :: msgs => a ← deliver msgRcvr msg a; deliverAll msgRcvr msgs a
  end.

(** That upcall, as [Peer.runReceiverLog] records it. *)
Definition upcall (msg : PeerMsg) : Peer.Upcall :=
  match msg with
  | ProdNotice info => Peer.RecvNoticeProd info
  | ChunkNotice info => Peer.RecvNoticeChunk info
  | ProdRequest index => Peer.RecvRequestProd index
  | ChunkRequest info => Peer.RecvRequestChunk info
  | Data chunk =>
      Peer.RecvData
        (LatentChunk.mk (ActualChunk.getInfo chunk)
           (Z.of_nat (length (ActualChunk.getData chunk))))
  end.

(** The message each send call puts on the wire. *)
Definition wire (version : Z) (msg : PeerMsg) : SctpSock.Msg :=
  match msg with
  | ProdNotice info =>
      SctpSock.mkMsg 1 (ProdInfo.serialize info [] version).2
  | ChunkNotice info =>
      SctpSock.mkMsg 2 (ChunkInfo.serialize info [] version).2
  | ProdRequest index =>
      SctpSock.mkMsg 3 (ProdIndex.serialize index [] version).2
  | ChunkRequest info =>
      SctpSock.mkMsg 4 (ChunkInfo.serialize info [] version).2
  | Data chunk =>
      SctpSock.mkMsg 5
        ((ChunkInfo.serialize (ActualChunk.getInfo chunk) [] version).2
         ++ ActualChunk.getData chunk)
  end.

(** A ChunkInfo with 32-bit fields that the validating constructor accepts
    under [canonSize]. *)
Definition validChunkInfo (canonSize : Z) (ci : ChunkInfo.t) : Prop :=
  uint32 (ChunkInfo.prodIndex ci) /\ uint32 (ChunkInfo.prodSize ci)
  /\ uint32 (ChunkInfo.chunkIndex ci)
  /\ ChunkInfo.ctor canonSize (ChunkInfo.prodIndex ci) (ChunkInfo.prodSize ci)
       (ChunkInfo.chunkIndex ci) = OK ci.

Definition wfMsg (canonSize : Z) (msg : PeerMsg) : Prop :=
  match msg with
  | ProdNotice info => ProdInfo.wf info
  | ChunkNotice info | ChunkRequest info => validChunkInfo canonSize info
  | ProdRequest index => uint32 index
  | Data chunk =>
      validChunkInfo canonSize (ActualChunk.getInfo chunk)
      /\ Z.of_nat (length (ActualChunk.getData chunk)) <= 65535
  end.

(** The receiver's [recvData] consumes every chunk it is handed. *)
Definition drains {A} (msgRcvr : Peer.PeerMsgRcvr A) : Prop :=
  forall chunk a a' use,
    Peer.recvData msgRcvr chunk a = OK (a', use) ->
    use <> LatentChunk.Untouched.

End Transmission.

(** ** Multicast receiver *)

Module McastReceiver.

(** Modelled from the spec: McastSender.h is not among the sources.  Each
    datagram begins with a 1-byte message id, 0x01 for PROD_INFO and 0x02
    for CHUNK. *)
Definition prodInfoMsgId : Z := 1.
Definition chunkMsgId : Z := 2.

(** Modelled from the spec: the datagram decoder [Dec] rests on Codec.h and
    UdpSock.h, which are not among the sources.  [fill] pulls the entire next
    datagram into the peek buffer (and blocks while there is none), [decode]
    reads from it, [clear] discards what is left of the current datagram, and
    [hasRecord] tells whether the socket still holds it.  [current] is the
    unread rest of the current datagram. *)
Record Dec : Type := mkDec {
  current : option (list Z);
  pending : list (list Z)
}.

(** [None]: no datagram has arrived, the caller stays blocked. *)
Definition fill (nbytes : Z) (decoder : Dec) : option Dec :=
  match current decoder, pending decoder with
  | Some _, _ => Some decoder
  | None, dgram :: rest => Some (mkDec (Some dgram) rest)
  | None, [] => None
  end.

Definition decode {T} (f : Codec.Decoder -> result (T * Codec.Decoder))
    (decoder : Dec) : result (T * Dec) :=
  match current decoder with
  | None => Throw (ShortMessage "Message is too short")
  | Some bytes =>
      '(x, rest) ← f bytes;
      mret (x, mkDec (Some rest) (pending decoder))
  end.

Definition clear (decoder : Dec) : Dec := mkDec None (pending decoder).

Definition hasRecord (decoder : Dec) : bool :=
  match current decoder with Some _ => true | None => false end.

(** Number of datagrams not yet consumed. *)
Definition backlog (decoder : Dec) : nat :=
  (length (pending decoder) + if hasRecord decoder then 1 else 0)%nat.

(** [LatentChunk::deserialize(decoder, version)]: the ChunkInfo is decoded,
    the payload stays in the decoder. *)
Definition deserializeChunk (canonSize : Z) (decoder : Dec) (version : Z)
  : result (LatentChunk.t * Dec) :=
  '(info, decoder) ←
     decode (fun d => ChunkInfo.deserialize canonSize d version) decoder;
  mret (LatentChunk.mk info
          (Z.of_nat (length (default [] (current decoder)))), decoder).

(** The upcall interface [McastContentRcvr] over an application state. *)
Record McastContentRcvr (A : Type) : Type := mkRcvr {
  receiveProd : ProdInfo.t -> A -> result A;
  receiveChunk : LatentChunk.t -> A -> result (A * LatentChunk.Use)
}.
Arguments receiveProd {A} _ _ _.
Arguments receiveChunk {A} _ _ _.

Definition afterUse (use : LatentChunk.Use) (decoder : Dec) : Dec :=
  match use with
  | LatentChunk.Drained | LatentChunk.Discarded => clear decoder
  | LatentChunk.Untouched => decoder
  end.

(** [LatentChunk::hasData] of a chunk bound to [decoder]. *)
Definition hasData (decoder : Dec) : bool := hasRecord decoder.

Inductive Pass (S : Type) : Type :=
  | Blocked (s : S)
  | Next (s : S).
Arguments Blocked {S} s.
Arguments Next {S} s.

(** One pass through the body of the [for (;;)] of [operator()]. *)
Definition receiverBody {A} (canonSize version : Z)
    (msgRcvr : McastContentRcvr A) (st : A * Dec) : result (Pass (A * Dec)) :=
  let '(a, decoder) := st in
  match fill 1 decoder with
  | None => mret (Blocked (a, decoder))
  | Some decoder =>
      '(msgId, decoder) ← decode Codec.decode8 decoder;
      if msgId =? prodInfoMsgId then
        match fill 0 decoder with
        | None => mret (Blocked (a, decoder))
        | Some decoder =>
            '(prodInfo, decoder) ←
               decode (fun d => ProdInfo.deserialize d version) decoder;
            a ← receiveProd msgRcvr prodInfo a;
            mret (Next (a, clear decoder))
        end
      else if msgId =? chunkMsgId then
        match fill (LatentChunk.getMetadataSize version) decoder with
        | None => mret (Blocked (a, decoder))
        | Some decoder =>
            '(chunk, decoder) ← deserializeChunk canonSize decoder version;
            '(a, use) ← receiveChunk msgRcvr chunk a;
            let decoder := afterUse use decoder in
            if hasData decoder
            then Throw (LogicError "Latent chunk-of-data not drained")
            else mret (Next (a, clear decoder))
        end
      else
        Throw (RuntimeError ("Invalid message type: " +:+ pretty msgId))
  end.

(** [McastReceiver::Impl::operator()]: the loop has no exit of its own; it
    ends by an exception or stays blocked.  [None] when [fuel] passes were
    not enough. *)
Inductive Outcome (S : Type) : Type :=
  | Threw (e : Exn)
  | Waiting (s : S).
Arguments Threw {S} e.
Arguments Waiting {S} s.

Fixpoint run {A} (canonSize version : Z) (msgRcvr : McastContentRcvr A)
    (fuel : nat) (st : A * Dec) : option (Outcome (A * Dec)) :=
  match fuel with
  | O => None
  | S fuel =>
      match receiverBody canonSize version msgRcvr st with
      | Throw e => Some (Threw e)
      | OK (Blocked st) => Some (Waiting st)
      | OK (Next st) => run canonSize version msgRcvr fuel st
      end
  end.

End McastReceiver.

(** ** Multicast transmission *)

Module McastTransmission.

(** What a multicast sender puts out for a product: its information, and its
    chunks. *)
Inductive McastMsg : Type :=
  | ProdInfoMsg (info : ProdInfo.t)
  | ChunkMsg (chunk : ActualChunk.t).

(** Modelled from the spec: McastSender.cpp is not among the sources.  A
    datagram is the 1-byte message id followed by the ProdInfo, or by the
    ChunkInfo and the chunk's bytes. *)
Definition datagram (version : Z) (msg : McastMsg) : list Z :=
  match msg with
  | ProdInfoMsg info =>
      McastReceiver.prodInfoMsgId :: (ProdInfo.serialize info [] version).2
  | ChunkMsg chunk =>
      McastReceiver.chunkMsgId
      :: (ChunkInfo.serialize (ActualChunk.getInfo chunk) [] version).2
         ++ ActualChunk.getData chunk
  end.

Definition deliver {A} (msgRcvr : McastReceiver.McastContentRcvr A)
    (msg : McastMsg) (a : A) : result A :=
  match msg with
  | ProdInfoMsg info => McastReceiver.receiveProd msgRcvr info a
  | ChunkMsg chunk =>
      '(a, _) ← McastReceiver.receiveChunk msgRcvr
                  (LatentChunk.mk (ActualChunk.getInfo chunk)
                     (Z.of_nat (length (ActualChunk.getData chunk)))) a;
      mret a
  end.

Fixpoint deliverAll {A} (msgRcvr : McastReceiver.McastContentRcvr A)
    (msgs : list McastMsg) (a : A) : result A :=
  match msgs with
  | [] => mret a
  | msg :: msgs => a ← deliver msgRcvr msg a; deliverAll msgRcvr msgs a
  end.

Definition wfMsg (canonSize : Z) (msg : McastMsg) : Prop :=
  match msg with
  | ProdInfoMsg info => ProdInfo.wf info
  | ChunkMsg chunk =>
      Transmission.validChunkInfo canonSize (ActualChunk.getInfo chunk)
  end.

(** The receiver's [receive(chunk)] consumes every chunk it is handed. *)
Definition drains {A} (msgRcvr : McastReceiver.McastContentRcvr A) : Prop :=
  forall chunk a a' use,
    McastReceiver.receiveChunk msgRcvr chunk a = OK (a', use) ->
    use <> LatentChunk.Untouched.

End McastTransmission.

(** ** Internet socket addresses *)

Module InetSockAddr.

(** [InetSockAddr::Impl] (src/main/net/InetSockAddr.cpp).  [InetAddr] and
    [PortNumber] are declared in headers that are not among the sources; they
    are the types [Addr] and [Port], and their operators are taken as
    arguments. *)
Record Impl (Addr Port : Type) : Type := mkImpl {
  inetAddr : Addr;
  port : Port
}.
Arguments mkImpl {Addr Port} _ _.
Arguments inetAddr {Addr Port} _.
Arguments port {Addr Port} _.

(** [Impl::operator<] *)
Definition ltb {Addr Port} (ltAddr eqAddr : Addr -> Addr -> bool)
    (ltPort : Port -> Port -> bool) (this that : Impl Addr Port) : bool :=
  if ltAddr (inetAddr this) (inetAddr that)
  then true
  else eqAddr (inetAddr this) (inetAddr that)
       && ltPort (port this) (port that).

(** [Impl::operator==] *)
Definition eqb {Addr Port} (eqAddr : Addr -> Addr -> bool)
    (eqPort : Port -> Port -> bool) (this rhs : Impl Addr Port) : bool :=
  eqAddr (inetAddr this) (inetAddr rhs) && eqPort (port this) (port rhs).

(** [Impl::hash] *)
Definition hash {Addr Port} (hashAddr : Addr -> Z) (hashPort : Port -> Z)
    (this : Impl Addr Port) : Z :=
  Z.lxor (hashAddr (inetAddr this)) (hashPort (port this)).

(** [addr.find(':') != std::string::npos] *)
Definition hasColon (str : string) : bool :=
  existsb (Ascii.eqb ":"%char) (String.list_ascii_of_string str).

(** [Impl::to_string]; [addr] and [port] are the texts that
    [InetAddr::to_string] and [PortNumber::to_string] give. *)
Definition to_string (addr port : string) : string :=
  if negb (hasColon addr)
  then addr +:+ ":" +:+ port
  else "[" +:+ addr +:+ "]:" +:+ port.

(** [InetSockAddrImpl::connect] and [bind] of the earlier implementation
    (src/src/main/net/InetSockAddr.cpp): the candidate socket addresses are
    tried in turn until the system call succeeds on one.  [attempt] is the
    system call's success on an address; the result comes with the addresses
    tried.  The exception's text is cut after "failure": the socket
    descriptor and the address that follow are left out. *)
Fixpoint tryEach {SockAddr} (attempt : SockAddr -> bool)
    (failure : string) (set : list SockAddr)
  : result unit * list SockAddr :=
  match set with
  | [] => (Throw (SystemError failure), [])
  | sockAddr :: set =>
      if attempt sockAddr then (OK tt, [sockAddr])
      else let '(r, tried) := tryEach attempt failure set in
           (r, sockAddr :: tried)
  end.

Definition connect {SockAddr} (sysConnect : SockAddr -> bool)
    (set : list SockAddr) : result unit * list SockAddr :=
  tryEach sysConnect "connect() failure" set.

Definition bind {SockAddr} (sysBind : SockAddr -> bool)
    (set : list SockAddr) : result unit * list SockAddr :=
  tryEach sysBind "bind() failure" set.

End InetSockAddr.

(** ** Product store *)

Module AddStatus.

(** [ProdStore::AddStatus] *)
Definition t : Type := Z.

Definition IS_COMPLETE : Z := 1.
Definition IS_NEW : Z := 2.
Definition IS_DUPLICATE : Z := 4.

Definition init : t := 0.
Definition setNew (status : t) : t := Z.lor status IS_NEW.
Definition setComplete (status : t) : t := Z.lor status IS_COMPLETE.
Definition setDuplicate (status : t) : t := Z.lor status IS_DUPLICATE.
Definition isNew (status : t) : bool := negb (Z.land status IS_NEW =? 0).
Definition isComplete (status : t) : bool :=
  negb (Z.land status IS_COMPLETE =? 0).
Definition isDuplicate (status : t) : bool :=
  negb (Z.land status IS_DUPLICATE =? 0).

Definition setCompleteIf (b : bool) (status : t) : t :=
  if b then setComplete status else status.

End AddStatus.

Module ProdStore.

(** Modelled from the spec: ProdStore.cpp and ProductImpl.cpp are not among
    the sources (only ProdStore.h and ProductImpl.h are).  From the data
    model: an entry is [{info : Option<ProdInfo>, present : BitSet of
    ChunkIndex, buffer : byte array of size info.ProdSize (allocated on first
    info arrival), complete : bool}]; chunk bytes that arrive before the
    ProdInfo are kept by chunk index ([early]) and copied into the buffer when
    it arrives; the store maps ProdIndex to entry and keeps a FIFO of
    insertions.  The insertion time and the lazily recomputed
    oldest-missing-chunk cache are left out. *)
Record ProductEntry : Type := mkEntry {
  info : option ProdInfo.t;
  present : gset Z;
  early : gmap Z (list Z);
  buffer : list Z;
  complete : bool
}.

Record t : Type := mk {
  entries : gmap Z ProductEntry;
  fifo : list Z
}.

(** The product handed back through the [prod] out-parameter. *)
Record Product : Type := mkProduct {
  prodInfo : ProdInfo.t;
  prodData : list Z
}.

(** "the bitmap is all-ones over [0, chunkCount)" *)
Definition allPresent (pi : ProdInfo.t) (present : gset Z) : bool :=
  forallb (fun i => bool_decide (i ∈ present))
    (seqZ 0 (ProdInfo.getNumChunks pi)).

(** Copies [data] into [buf] at [offset], within the bounds of [buf]. *)
Definition writeAt (offset : nat) (data buf : list Z) : list Z :=
  take offset buf ++ take (length buf - offset) data
    ++ drop (offset + length data) buf.

Definition chunkOffset (pi : ProdInfo.t) (chunkIndex : Z) : nat :=
  Z.to_nat (chunkIndex * ProdInfo.getChunkSize pi).

Definition mergeEarly (pi : ProdInfo.t) (early : gmap Z (list Z))
    (buf : list Z) : list Z :=
  map_fold (fun i data buf => writeAt (chunkOffset pi i) data buf) buf early.

Definition outProduct (e : ProductEntry) : option Product :=
  match info e with
  | Some pi => if complete e then Some (mkProduct pi (buffer e)) else None
  | None => None
  end.

(** [add(prodInfo, prod)]: creates the entry with allocated buffer if absent;
    merges into an existing chunks-only entry and may transition to
    complete; a second ProdInfo is a duplicate. *)
Definition addInfo (pi : ProdInfo.t) (store : t)
  : AddStatus.t * option Product * t :=
  let index := ProdInfo.getIndex pi in
  match entries store !! index with
  | None =>
      let e := mkEntry (Some pi) ∅ ∅
                 (replicate (Z.to_nat (ProdInfo.getSize pi)) 0)
                 (allPresent pi ∅) in
      (AddStatus.setCompleteIf (complete e) (AddStatus.setNew AddStatus.init),
       outProduct e,
       mk (<[index := e]> (entries store)) (fifo store ++ [index]))
  | Some e =>
      match info e with
      | Some _ =>
          (AddStatus.setCompleteIf (complete e)
             (AddStatus.setDuplicate AddStatus.init),
           outProduct e, store)
      | None =>
          let buf := mergeEarly pi (early e)
                       (replicate (Z.to_nat (ProdInfo.getSize pi)) 0) in
          let e' := mkEntry (Some pi) (present e) ∅ buf
                      (allPresent pi (present e)) in
          (AddStatus.setCompleteIf (complete e') AddStatus.init,
           outProduct e',
           mk (<[index := e']> (entries store)) (fifo store))
      end
  end.

(** [add(latentChunk, prod)]: drains the chunk exactly once into the entry at
    the chunk's offset and checks for completion; on a duplicate, discards;
    an out-of-range chunk is discarded with an empty status.  [data] is the
    payload the latent chunk would drain. *)
Definition addChunk (chunk : LatentChunk.t) (data : list Z) (store : t)
  : AddStatus.t * option Product * LatentChunk.Use * t :=
  let index := ChunkInfo.prodIndex (LatentChunk.getInfo chunk) in
  let i := ChunkInfo.chunkIndex (LatentChunk.getInfo chunk) in
  match entries store !! index with
  | None =>
      let e := mkEntry None {[i]} {[i := data]} [] false in
      (AddStatus.setNew AddStatus.init, None, LatentChunk.Drained,
       mk (<[index := e]> (entries store)) (fifo store ++ [index]))
  | Some e =>
      if bool_decide (i ∈ present e) then
        (AddStatus.setCompleteIf (complete e)
           (AddStatus.setDuplicate AddStatus.init),
         outProduct e, LatentChunk.Discarded, store)
      else
        match info e with
        | None =>
            let e' := mkEntry None ({[i]} ∪ present e) (<[i := data]> (early e))
                        (buffer e) false in
            (AddStatus.init, None, LatentChunk.Drained,
             mk (<[index := e']> (entries store)) (fifo store))
        | Some pi =>
            if (0 <=? i) && (i <? ProdInfo.getNumChunks pi) then
              let e' := mkEntry (Some pi) ({[i]} ∪ present e) (early e)
                          (writeAt (chunkOffset pi i) data (buffer e))
                          (allPresent pi ({[i]} ∪ present e)) in
              (AddStatus.setCompleteIf (complete e') AddStatus.init,
               outProduct e', LatentChunk.Drained,
               mk (<[index := e']> (entries store)) (fifo store))
            else
              (AddStatus.init, None, LatentChunk.Discarded, store)
        end
  end.

(** [haveChunk(info)]: the bit is set. *)
Definition haveChunk (ci : ChunkInfo.t) (store : t) : bool :=
  match entries store !! ChunkInfo.prodIndex ci with
  | Some e => bool_decide (ChunkInfo.chunkIndex ci ∈ present e)
  | None => false
  end.

(** Whether the entry of product [index] is complete. *)
Definition isComplete (index : Z) (store : t) : bool :=
  match entries store !! index with
  | Some e => complete e
  | None => false
  end.

(** An addition that concerns product [pi]: its ProdInfo, or one of its
    chunks with the payload. *)
Inductive Item : Type :=
  | AddInfo
  | AddChunk (chunkIndex : Z) (data : list Z).

Definition validItem (pi : ProdInfo.t) (item : Item) : Prop :=
  match item with
  | AddInfo => True
  | AddChunk i _ => 0 <= i < ProdInfo.getNumChunks pi
  end.

(** What an addition gives back: the status, the [prod] out-parameter (set
    iff the status says complete) and the store afterwards. *)
Record Added : Type := mkAdded {
  status : AddStatus.t;
  product : option Product;
  after : t
}.

Definition addItem (pi : ProdInfo.t) (item : Item) (store : t) : Added :=
  match item with
  | AddInfo =>
      let '(status, prod, store) := addInfo pi store in
      mkAdded status prod store
  | AddChunk i data =>
      let ci := ChunkInfo.mk (ProdInfo.getIndex pi) (ProdInfo.getSize pi) i in
      let chunk := LatentChunk.mk ci (Z.of_nat (length data)) in
      let '(status, prod, _, store) := addChunk chunk data store in
      mkAdded status prod store
  end.

(** The outcome of each of a sequence of additions. *)
Fixpoint addItems (pi : ProdInfo.t) (items : list Item) (store : t)
  : list Added :=
  match items with
  | [] => []
  | item :: items =>
      let r := addItem pi item store in
      r :: addItems pi items (after r)
  end.

(** The sequence holds the ProdInfo and every chunk of the product. *)
Definition covers (pi : ProdInfo.t) (items : list Item) : Prop :=
  AddInfo ∈ items
  /\ forall i, 0 <= i < ProdInfo.getNumChunks pi ->
       exists data, AddChunk i data ∈ items.

(** What the entry of a product has been given so far: whether its ProdInfo,
    and which chunk indexes. *)
Definition Seen : Type := bool * gset Z.

Definition seenAfter (seen : Seen) (item : Item) : Seen :=
  match item with
  | AddInfo => (true, seen.2)
  | AddChunk i _ => (seen.1, {[i]} ∪ seen.2)
  end.

Definition alreadySeen (seen : Seen) (item : Item) : bool :=
  match item with
  | AddInfo => seen.1
  | AddChunk i _ => bool_decide (i ∈ seen.2)
  end.

(** The entry is whole: ProdInfo and every chunk have been given. *)
Definition whole (pi : ProdInfo.t) (seen : Seen) : bool :=
  seen.1 && allPresent pi seen.2.

(** The entry of product [pi] has recorded exactly what was given. *)
Definition agrees (pi : ProdInfo.t) (store : t) (seen : Seen) : Prop :=
  match entries store !! ProdInfo.getIndex pi with
  | None => seen = (false, ∅)
  | Some e =>
      seen <> (false, ∅)
      /\ info e = (if seen.1 then Some pi else None)
      /\ present e = seen.2
      /\ complete e = whole pi seen
  end.

End ProdStore.

(** ** Scenarios *)

Module Scenario.

(** A receiver that records its upcalls and drains every chunk, after
    [TestMsgRcvr] of Peer_test.cpp. *)
Inductive Upcall : Type :=
  | ProdNotice (info : ProdInfo.t)
  | ChunkNotice (info : ChunkInfo.t)
  | ProdRequest (index : ProdIndex.t)
  | ChunkRequest (info : ChunkInfo.t)
  | Data (chunk : LatentChunk.t).

Definition recorder (use : LatentChunk.Use) : Peer.PeerMsgRcvr (list Upcall) :=
  Peer.mkRcvr (list Upcall)
    (fun info log => OK (log ++ [ProdNotice info]))
    (fun info log => OK (log ++ [ChunkNotice info]))
    (fun index log => OK (log ++ [ProdRequest index]))
    (fun info log => OK (log ++ [ChunkRequest info]))
    (fun chunk log => OK (log ++ [Data chunk], use)).

Definition mcastRecorder (use : LatentChunk.Use)
  : McastReceiver.McastContentRcvr (list Upcall) :=
  McastReceiver.mkRcvr (list Upcall)
    (fun info log => OK (log ++ [ProdNotice info]))
    (fun chunk log => OK (log ++ [Data chunk], use)).

Definition prodInfo : ProdInfo.t := ProdInfo.mk "product" 1 100000 1400.
Definition chunkInfo : ChunkInfo.t := ChunkInfo.mk 2 100000 3.
Definition prodIndex : ProdIndex.t := 2.
Definition payload : list Z := replicate 2000 0.

(** [runTestSender] of Peer_test.cpp: what the sending peer puts on the
    wire, handshake included. *)
Definition senderSock : SctpSock.t :=
  let sock := Channel.send VersionMsg.serialize 0 0 (VersionMsg.mk 0)
                (SctpSock.mk None [] []) in
  let sock := Channel.send ProdInfo.serialize 1 0 prodInfo sock in
  let sock := Channel.send ChunkInfo.serialize 2 0 chunkInfo sock in
  let sock := Channel.send ProdIndex.serialize 3 0 prodIndex sock in
  let sock := Channel.send ChunkInfo.serialize 4 0 chunkInfo sock in
  SctpSock.send 5 ((ChunkInfo.serialize chunkInfo [] 0).2 ++ payload) sock.

(** The receiving peer's socket: what the sender sent is pending. *)
Definition receiverSock : SctpSock.t :=
  SctpSock.mk None (SctpSock.sent senderSock) [].

(** [runTestReceiver]: handshake, then the receive loop. *)
Definition runTestReceiver (use : LatentChunk.Use)
  : option (result (list Upcall * Peer.Impl)) :=
  match Peer.ctor receiverSock with
  | Throw e => Some (Throw e)
  | OK impl => Peer.runReceiver 32760 (recorder use) 10 ([], impl)
  end.

(** A product of 4096 bytes in chunks of 1024 bytes. *)
Definition smallInfo : ProdInfo.t := ProdInfo.mk "p" 1 4096 1024.
Definition smallChunk (i : Z) : ProdStore.Item :=
  ProdStore.AddChunk i (replicate 1024 170).
Definition emptyStore : ProdStore.t := ProdStore.mk ∅ [].

Definition inOrder : list ProdStore.Item :=
  [ProdStore.AddInfo; smallChunk 0; smallChunk 1; smallChunk 2; smallChunk 3].
Definition reverseOrder : list ProdStore.Item :=
  [smallChunk 3; smallChunk 2; smallChunk 1; smallChunk 0; ProdStore.AddInfo;
   smallChunk 2].

(** What [McastSender::send] puts on the wire for a ProdInfo and one chunk,
    followed by a datagram with an unknown message id. *)
Definition datagrams : list (list Z) :=
  [ McastReceiver.prodInfoMsgId :: (ProdInfo.serialize prodInfo [] 0).2;
    McastReceiver.chunkMsgId :: (ChunkInfo.serialize chunkInfo [] 0).2
      ++ payload;
    [7; 1; 2; 3] ].

Definition latentChunk2 : LatentChunk.t :=
  LatentChunk.mk (ChunkInfo.mk 1 4096 2) 1024.

End Scenario.

(** * Properties *)

(** ** Chunk layout *)

(** Below 2^32 the offset is the exact product. *)
Lemma getOffset_exact (canonSize chunkIndex : Z) :
  0 <= chunkIndex * canonSize < 4294967296 ->
  ChunkInfo.getOffset canonSize chunkIndex = chunkIndex * canonSize.
Proof.
  intros H. unfold ChunkInfo.getOffset, ChunkInfo.getCanonSize, wrap32.
  apply Z.mod_small. exact H.
Qed.

Lemma getOffset_uint32 (canonSize chunkIndex : Z) :
  uint32 (ChunkInfo.getOffset canonSize chunkIndex).
Proof.
  unfold uint32, ChunkInfo.getOffset, wrap32. apply Z.mod_pos_bound. lia.
Qed.

Section ChunkLayout.

Variable canonSize : Z.
Hypothesis canonSize_ok : ChunkInfo.canonOk canonSize.

(** The constructor's chunk count is the ceiling as long as
    [prodSize + canonSize - 1] fits in 32 bits. *)
Lemma numChunks_ceil (prodSize : Z) :
  0 <= prodSize -> prodSize + canonSize - 1 < 4294967296 ->
  ChunkInfo.numChunks canonSize prodSize = ceilDiv prodSize canonSize.
Proof.
  intros Hs Hfit. unfold ChunkInfo.numChunks, ChunkInfo.getCanonSize, ceilDiv, wrap32.
  unfold ChunkInfo.canonOk in canonSize_ok.
  f_equal.
  destruct (Z_lt_ge_dec (prodSize + canonSize) 4294967296) as [Hlt | Hge].
  - rewrite (Z.mod_small (prodSize + canonSize)) by lia.
    rewrite Z.mod_small by lia. lia.
  - assert (prodSize + canonSize = 4294967296) as -> by lia.
    reflexivity.
Qed.

(** It never exceeds the ceiling. *)
Lemma numChunks_le_ceil (prodSize : Z) :
  uint32 prodSize ->
  ChunkInfo.numChunks canonSize prodSize <= ceilDiv prodSize canonSize.
Proof.
  intros Hs. unfold ChunkInfo.numChunks, ChunkInfo.getCanonSize, ceilDiv, wrap32.
  unfold ChunkInfo.canonOk in canonSize_ok. unfold uint32 in Hs.
  apply Z.div_le_mono; [lia |].
  Z.to_euclidean_division_equations. lia.
Qed.

Lemma ceilDiv_bound (prodSize i : Z) :
  0 <= prodSize -> (i < ceilDiv prodSize canonSize <-> i * canonSize < prodSize).
Proof.
  intros Hs. unfold ceilDiv. unfold ChunkInfo.canonOk in canonSize_ok.
  Z.to_euclidean_division_equations. nia.
Qed.

(** In range, [getSize] is the canonical size, except for the last chunk. *)
Lemma getSize_in_range (prodSize chunkIndex : Z) :
  uint32 prodSize -> 0 <= chunkIndex < ceilDiv prodSize canonSize ->
  ChunkInfo.getSize canonSize prodSize chunkIndex
  = OK (Z.min canonSize (prodSize - chunkIndex * canonSize)).
Proof.
  intros Hs [Hi0 Hi]. apply ceilDiv_bound in Hi; [| apply Hs].
  unfold ChunkInfo.canonOk in canonSize_ok. unfold uint32 in Hs.
  assert (0 <= chunkIndex * canonSize) by nia.
  unfold ChunkInfo.getSize. rewrite getOffset_exact by lia.
  unfold ChunkInfo.getCanonSize.
  destruct (Z.geb_spec (chunkIndex * canonSize) prodSize) as [Hge | Hlt]; [lia |].
  f_equal. unfold wrap32, wrap16.
  rewrite (Z.mod_small (prodSize - chunkIndex * canonSize)) by lia.
  destruct (Z.ltb_spec canonSize (prodSize - chunkIndex * canonSize));
    rewrite Z.mod_small by lia; lia.
Qed.

Lemma sumSizes_prefix (prodSize : Z) (n : nat) :
  uint32 prodSize -> Z.of_nat n <= ceilDiv prodSize canonSize ->
  ChunkInfo.sumSizes canonSize prodSize n
  = Z.min prodSize (Z.of_nat n * canonSize).
Proof.
  intros Hs. unfold ChunkInfo.canonOk in canonSize_ok.
  induction n as [| k IH]; intros Hn.
  - simpl. unfold uint32 in Hs. lia.
  - cbn [ChunkInfo.sumSizes]. rewrite IH by lia.
    unfold ChunkInfo.sizeOr0. rewrite getSize_in_range by (auto; lia).
    assert (Z.of_nat k * canonSize < prodSize)
      by (apply ceilDiv_bound; [apply Hs | lia]).
    nia.
Qed.

(** The chunk sizes of a product add up to the product's size. *)
Lemma sumSizes_total (prodSize : Z) :
  uint32 prodSize ->
  ChunkInfo.sumSizes canonSize prodSize (Z.to_nat (ceilDiv prodSize canonSize))
  = prodSize.
Proof.
  intros Hs. unfold ChunkInfo.canonOk in canonSize_ok.
  assert (0 <= ceilDiv prodSize canonSize) as Hc.
  { unfold ceilDiv. apply Z.div_pos; unfold uint32 in Hs; lia. }
  rewrite sumSizes_prefix by (auto; lia).
  rewrite Z2Nat.id by exact Hc.
  assert (~ ceilDiv prodSize canonSize * canonSize < prodSize) as Hn.
  { intros H. apply ceilDiv_bound in H; [lia | apply Hs]. }
  lia.
Qed.

End ChunkLayout.

(** C4 (defect): with the default canonical size and a product of
    4294967295 bytes the constructor's chunk count wraps around to 0, whereas
    the ceiling of the quotient is 131105; chunk 1 of that product, whose size
    [getSize] gives as 32760, is therefore rejected by the constructor. *)
Theorem numChunks_wraps_around :
  ChunkInfo.numChunks 32760 4294967295 = 0
  /\ ceilDiv 4294967295 32760 = 131105
  /\ ChunkInfo.getSize 32760 4294967295 1 = OK 32760
  /\ throwsKind (ChunkInfo.ctor 32760 7 4294967295 1) KInvalidArgument.
Proof.
  repeat split; try reflexivity.
  eexists. split; [vm_compute; reflexivity | reflexivity].
Qed.

(** C5 (as stated, refuted): chunk index 0 of an empty product is not below
    the chunk count 0, yet the constructor accepts it. *)
Lemma ctor_accepts_index_zero_of_empty_product :
  ChunkInfo.canonOk 32760 /\ uint32 0
  /\ 0 >= ceilDiv 0 32760
  /\ ChunkInfo.ctor 32760 0 0 0 = OK (ChunkInfo.mk 0 0 0)
  /\ ~ throwsKind (ChunkInfo.ctor 32760 0 0 0) KInvalidArgument.
Proof.
  repeat split; try (vm_compute; congruence).
  intros [e [H _]]. vm_compute in H. discriminate.
Qed.

(** C5 (amended): the constructor throws InvalidArgument for every non-zero
    chunk index that is not below the ceiling of prodSize / canonSize, so a
    constructed ChunkInfo with a non-zero chunk index has its index below
    the chunk count; chunk index 0 is accepted for every product size. *)
Theorem ctor_rejects_nonzero_index_out_of_range
  (canonSize prodIndex prodSize chunkIndex : Z) :
  ChunkInfo.canonOk canonSize -> uint32 prodSize ->
  (chunkIndex <> 0 -> chunkIndex >= ceilDiv prodSize canonSize ->
     throwsKind (ChunkInfo.ctor canonSize prodIndex prodSize chunkIndex)
       KInvalidArgument)
  /\ (forall ci, ChunkInfo.ctor canonSize prodIndex prodSize chunkIndex = OK ci ->
        ci = ChunkInfo.mk prodIndex prodSize chunkIndex
        /\ (ChunkInfo.chunkIndex ci <> 0 ->
            ChunkInfo.chunkIndex ci
            < ceilDiv (ChunkInfo.prodSize ci) canonSize))
  /\ ChunkInfo.ctor canonSize prodIndex prodSize 0
     = OK (ChunkInfo.mk prodIndex prodSize 0).
Proof.
  intros Hc Hs. pose proof (numChunks_le_ceil canonSize Hc prodSize Hs) as Hle.
  unfold ChunkInfo.ctor. split; [| split].
  - intros Hnz Hge.
    destruct (Z.eqb_spec chunkIndex 0) as [? | _]; [contradiction |].
    destruct (Z.geb_spec chunkIndex (ChunkInfo.numChunks canonSize prodSize));
      [| lia].
    simpl. eexists. split; reflexivity.
  - intros ci H.
    destruct (Z.eqb_spec chunkIndex 0) as [-> | Hnz].
    + simpl in H. injection H as <-. split; [reflexivity |].
      simpl. intros Hne. contradiction.
    + destruct (Z.geb_spec chunkIndex (ChunkInfo.numChunks canonSize prodSize));
        simpl in H; [discriminate |].
      injection H as <-. split; [reflexivity |]. simpl. lia.
  - reflexivity.
Qed.

Lemma ctor_rejects_nonzero_index_out_of_range_witness :
  throwsKind (ChunkInfo.ctor 32760 1 65520 2) KInvalidArgument
  /\ ChunkInfo.ctor 32760 1 65520 0 = OK (ChunkInfo.mk 1 65520 0).
Proof.
  assert (ChunkInfo.canonOk 32760) as Hc by (unfold ChunkInfo.canonOk; lia).
  assert (uint32 65520) as Hs by (unfold uint32; lia).
  destruct (ctor_rejects_nonzero_index_out_of_range 32760 1 65520 2 Hc Hs)
    as [H1 [_ H3]].
  split.
  - apply H1; [lia | vm_compute; discriminate].
  - exact H3.
Defined.

(** The guard of [getSize] on the offset that [getOffset] returns: [getSize]
    throws InvalidArgument whenever that offset is not below the product
    size, in particular for every empty product; whenever it returns, the
    32-bit difference prodSize - offset did not wrap, and the result is
    positive (and is the smaller of the canonical size and what remains). *)
Theorem getSize_guards_offset (canonSize prodSize chunkIndex : Z) :
  ChunkInfo.canonOk canonSize -> uint32 prodSize -> uint32 chunkIndex ->
  (ChunkInfo.getOffset canonSize chunkIndex >= prodSize ->
     throwsKind (ChunkInfo.getSize canonSize prodSize chunkIndex)
       KInvalidArgument)
  /\ (prodSize = 0 ->
     throwsKind (ChunkInfo.getSize canonSize prodSize chunkIndex)
       KInvalidArgument)
  /\ (forall n, ChunkInfo.getSize canonSize prodSize chunkIndex = OK n ->
        0 < n
        /\ ChunkInfo.getOffset canonSize chunkIndex < prodSize
        /\ wrap32 (prodSize - ChunkInfo.getOffset canonSize chunkIndex)
           = prodSize - ChunkInfo.getOffset canonSize chunkIndex
        /\ n = Z.min canonSize
                 (prodSize - ChunkInfo.getOffset canonSize chunkIndex)).
Proof.
  intros Hc Hs Hi. unfold ChunkInfo.canonOk in Hc. unfold uint32 in Hs, Hi.
  assert (0 <= ChunkInfo.getOffset canonSize chunkIndex) as Hoff
    by apply getOffset_uint32.
  assert (forall off, off >= prodSize ->
    throwsKind
      (if off >=? prodSize
       then Throw (InvalidArgument
              ("Chunk-offset is greater than or equal to product-size: offset="
               +:+ pretty off +:+ ", size=" +:+ pretty prodSize
               +:+ ", chunkIndex=" +:+ pretty chunkIndex))
       else OK (wrap16 (if ChunkInfo.getCanonSize canonSize
                             <? wrap32 (prodSize - off)
                        then ChunkInfo.getCanonSize canonSize
                        else wrap32 (prodSize - off))))
      KInvalidArgument) as Hthrow.
  { intros off Hge. destruct (Z.geb_spec off prodSize); [| lia].
    eexists. split; reflexivity. }
  split; [| split].
  - intros Hge. apply Hthrow. exact Hge.
  - intros ->. apply Hthrow. lia.
  - intros n Hn. unfold ChunkInfo.getSize in Hn.
    set (off := ChunkInfo.getOffset canonSize chunkIndex) in *.
    destruct (Z.geb_spec off prodSize) as [Hge | Hlt]; [discriminate |].
    injection Hn as <-. unfold ChunkInfo.getCanonSize, wrap32, wrap16.
    rewrite (Z.mod_small (prodSize - off)) by lia.
    destruct (Z.ltb_spec canonSize (prodSize - off));
      rewrite Z.mod_small by lia; lia.
Qed.

Lemma getSize_guards_offset_witness :
  throwsKind (ChunkInfo.getSize 32760 0 0) KInvalidArgument
  /\ throwsKind (ChunkInfo.getSize 32760 65520 2) KInvalidArgument.
Proof.
  assert (ChunkInfo.canonOk 32760) as Hc by (unfold ChunkInfo.canonOk; lia).
  split.
  - destruct (getSize_guards_offset 32760 0 0 Hc) as [_ [H _]];
      [unfold uint32; lia | unfold uint32; lia |].
    apply H. reflexivity.
  - destruct (getSize_guards_offset 32760 65520 2 Hc) as [H _];
      [unfold uint32; lia | unfold uint32; lia |].
    apply H. vm_compute. discriminate.
Defined.


(** ** Peer handshake *)

(** A remote peer that announces version 1 on stream 0: construction fails
    with the unsupported-version error, which names that version. *)
Example handshake_mismatch :
  Peer.ctor (SctpSock.mk None [SctpSock.mkMsg 0 [0; 0; 0; 1]] [])
  = Throw (Peer.unsupportedVersion 1).
Proof. vm_compute. reflexivity. Qed.

Lemma handshake_inv (sock : SctpSock.t) :
  match SctpSock.current (SctpSock.peek sock) with
  | None => exists what, Peer.ctor sock = Throw (SystemError what)
  | Some m =>
      if SctpSock.streamId m =? Peer.VERSION_STREAM_ID then
        match Codec.decode32 (SctpSock.data m) with
        | Throw e => Peer.ctor sock = Throw e
        | OK (vers, _) =>
            if vers =? 0
            then Peer.ctor sock
                 = OK (Peer.mkImpl 0
                         (SctpSock.mk None (SctpSock.pending (SctpSock.peek sock))
                            (SctpSock.sent sock
                             ++ [SctpSock.mkMsg Peer.VERSION_STREAM_ID [0; 0; 0; 0]])))
            else Peer.ctor sock
                 = Throw (LogicError
                     ("Remote peer uses unsupported protocol version: "
                      +:+ pretty vers))
        end
      else Peer.ctor sock
           = Throw (StdLogicError "Current message isn't a version message")
  end.
Proof.
  destruct sock as [[m |] [| m' rest] snt];
    unfold Peer.ctor, Peer.getVersion, SctpSock.getStreamId, Channel.send,
      Channel.recv, SctpSock.send, SctpSock.peek; cbn -[pretty Z.eqb].
  1,2: destruct (SctpSock.streamId m =? Peer.VERSION_STREAM_ID) eqn:Hs;
       cbn -[pretty Z.eqb]; [| reflexivity];
       unfold VersionMsg.deserialize;
       destruct (Codec.decode32 (SctpSock.data m)) as [[vers d] | e];
       cbn -[pretty Z.eqb]; [| reflexivity];
       destruct (vers =? 0); reflexivity.
  - eexists. reflexivity.
  - destruct (SctpSock.streamId m' =? Peer.VERSION_STREAM_ID) eqn:Hs;
      cbn -[pretty Z.eqb]; [| reflexivity].
    unfold VersionMsg.deserialize.
    destruct (Codec.decode32 (SctpSock.data m')) as [[vers d] | e];
      cbn -[pretty Z.eqb]; [| reflexivity].
    destruct (vers =? 0); reflexivity.
Qed.



(** ** Peer receive loop *)

Ltac ok_inj H := unfold mret, result_ret in H; injection H as <-.

Lemma bind_OK {X Y} (r : result X) (k : X -> result Y) (y : Y) :
  (r ≫= k) = OK y -> exists x, r = OK x /\ k x = OK y.
Proof.
  destruct r as [x | e]; cbn; intros H; [eauto | discriminate].
Qed.

Lemma recv_sock {T} (f : Codec.Decoder -> Z -> result (T * Codec.Decoder))
    (v : Z) (sock sock' : SctpSock.t) (x : T) :
  Channel.recv f v sock = OK (x, sock') ->
  sock' = SctpSock.discard (SctpSock.peek sock).
Proof.
  unfold Channel.recv.
  destruct (SctpSock.current (SctpSock.peek sock)) as [m |]; [| discriminate].
  intros H. apply bind_OK in H as [[obj d] [_ H]]. injection H as _ <-.
  reflexivity.
Qed.

Lemma recvChunk_sock (c v : Z) (sock sock' : SctpSock.t) (chunk : LatentChunk.t) :
  Channel.recvChunk c v sock = OK (chunk, sock') ->
  sock' = SctpSock.peek sock /\ SctpSock.hasMessage sock' = true.
Proof.
  unfold Channel.recvChunk, SctpSock.hasMessage.
  destruct (SctpSock.current (SctpSock.peek sock)) as [m |] eqn:Hm;
    [| discriminate].
  intros H. apply bind_OK in H as [[info d] [_ H]]. injection H as _ <-.
  rewrite Hm. auto.
Qed.


Lemma getSize_current (sock : SctpSock.t) :
  (SctpSock.getSize sock).2 = SctpSock.peek sock
  /\ ((SctpSock.getSize sock).1 <> 0 ->
      exists m, SctpSock.current (SctpSock.peek sock) = Some m).
Proof.
  unfold SctpSock.getSize.
  destruct (SctpSock.current (SctpSock.peek sock)) as [m |]; cbn; split;
    try reflexivity; intros H; [eauto | congruence].
Qed.

Lemma peek_current (sock : SctpSock.t) (m : SctpSock.Msg) :
  SctpSock.current sock = Some m -> SctpSock.peek sock = sock.
Proof. unfold SctpSock.peek. intros ->. reflexivity. Qed.



Section PeerReceiver.

Context {A : Type}.
Variable canonSize : Z.
Variable msgRcvr : Peer.PeerMsgRcvr A.

Lemma receiverBody_break (a : A) (impl : Peer.Impl) :
  (SctpSock.getSize (Peer.sock impl)).1 = 0 ->
  Peer.receiverBody canonSize msgRcvr (a, impl)
  = OK (Peer.Break (a, Peer.mkImpl (Peer.version impl)
                         (SctpSock.peek (Peer.sock impl)))).
Proof.
  intros H. unfold Peer.receiverBody.
  pose proof (getSize_current (Peer.sock impl)) as [H2 _].
  destruct (SctpSock.getSize (Peer.sock impl)) as [size sock0].
  cbn in H, H2. subst. reflexivity.
Qed.

Lemma receiverBody_dispatch (a : A) (impl : Peer.Impl) :
  (SctpSock.getSize (Peer.sock impl)).1 <> 0 ->
  exists m, SctpSock.current (SctpSock.peek (Peer.sock impl)) = Some m
    /\ Peer.receiverBody canonSize msgRcvr (a, impl)
       = dispatched canonSize msgRcvr a (Peer.version impl) (SctpSock.peek (Peer.sock impl))
           (SctpSock.streamId m).
Proof.
  intros H. unfold Peer.receiverBody.
  pose proof (getSize_current (Peer.sock impl)) as [H2 H3].
  destruct (H3 H) as [m Hm]. exists m. split; [exact Hm |].
  destruct (SctpSock.getSize (Peer.sock impl)) as [size sock0].
  cbn in H, H2. subst sock0.
  destruct (Z.eqb_spec size 0) as [? | _]; [contradiction |].
  unfold SctpSock.getStreamId.
  rewrite (peek_current _ _ Hm), Hm. reflexivity.
Qed.


Lemma dispatched_not_break (a : A) (v : Z) (sock : SctpSock.t) (sid : Z)
    (st : A * Peer.Impl) :
  dispatched canonSize msgRcvr a v sock sid <> OK (Peer.Break st).
Proof.
  unfold dispatched.
  repeat match goal with
  | |- context [if ?b =? ?c then _ else _] => destruct (b =? c)
  end; intros H.
  1-4: apply bind_OK in H as [[x sock'] [_ H]];
       apply bind_OK in H as [a' [_ H]]; discriminate.
  - apply bind_OK in H as [[chunk sock'] [_ H]].
    apply bind_OK in H as [[a' use] [_ H]].
    destruct (Peer.hasData (Peer.afterUse use sock')); discriminate.
  - discriminate.
Qed.





End PeerReceiver.


(** ** Latent chunks must be drained *)

Lemma peer_chunk_pass {A : Type} (canonSize : Z) (msgRcvr : Peer.PeerMsgRcvr A)
    (a a' : A) (impl : Peer.Impl) (m : SctpSock.Msg) (chunk : LatentChunk.t)
    (sock' : SctpSock.t) (use : LatentChunk.Use) :
  (SctpSock.getSize (Peer.sock impl)).1 <> 0 ->
  SctpSock.current (SctpSock.peek (Peer.sock impl)) = Some m ->
  SctpSock.streamId m = 5 ->
  Channel.recvChunk canonSize (Peer.version impl)
    (SctpSock.peek (Peer.sock impl)) = OK (chunk, sock') ->
  Peer.recvData msgRcvr chunk a = OK (a', use) ->
  Peer.receiverBody canonSize msgRcvr (a, impl)
  = if Peer.hasData (Peer.afterUse use sock')
    then Throw (LogicError "Latent chunk-of-data still has data")
    else OK (Peer.Continue
               (a', Peer.mkImpl (Peer.version impl) (Peer.afterUse use sock'))).
Proof.
  intros Hnz Hm Hsid Hrecv Hup.
  destruct (receiverBody_dispatch canonSize msgRcvr a impl Hnz) as [m' [Hm' ->]].
  assert (m' = m) as -> by congruence.
  unfold dispatched. rewrite Hsid. cbn [Z.eqb Pos.eqb].
  rewrite Hrecv. cbn. rewrite Hup. reflexivity.
Qed.

Lemma mcast_chunk_pass {A : Type} (canonSize version : Z)
    (msgRcvr : McastReceiver.McastContentRcvr A) (a a' : A)
    (decoder d1 d2 d3 : McastReceiver.Dec) (chunk : LatentChunk.t)
    (use : LatentChunk.Use) :
  McastReceiver.fill 1 decoder = Some d1 ->
  McastReceiver.decode Codec.decode8 d1 = OK (McastReceiver.chunkMsgId, d2) ->
  McastReceiver.deserializeChunk canonSize d2 version = OK (chunk, d3) ->
  McastReceiver.receiveChunk msgRcvr chunk a = OK (a', use) ->
  McastReceiver.receiverBody canonSize version msgRcvr (a, decoder)
  = if McastReceiver.hasData (McastReceiver.afterUse use d3)
    then Throw (LogicError "Latent chunk-of-data not drained")
    else OK (McastReceiver.Next
               (a', McastReceiver.clear (McastReceiver.afterUse use d3))).
Proof.
  intros Hfill Hid Hchunk Hup.
  unfold McastReceiver.receiverBody. rewrite Hfill, Hid. cbn.
  assert (McastReceiver.fill (LatentChunk.getMetadataSize version) d2 = Some d2)
    as ->.
  { unfold McastReceiver.decode in Hid.
    destruct (McastReceiver.current d1) as [bytes |]; [| discriminate].
    apply bind_OK in Hid as [[x rest] [_ Hid]].
    unfold mret, result_ret in Hid. injection Hid as _ <-. reflexivity. }
  rewrite Hchunk. cbn. rewrite Hup. reflexivity.
Qed.

(** C1: in both receive loops, when the upcall that was handed a latent chunk
    returns normally, the loop probes the chunk's [hasData]: if the chunk
    still has data the loop throws LogicError, and the loop goes on to its
    next pass only with a chunk whose [hasData] is false. *)
Theorem latent_chunk_drain_checked {A : Type} (canonSize : Z) (a a' : A)
    (chunk : LatentChunk.t) (use : LatentChunk.Use) :
  (forall (msgRcvr : Peer.PeerMsgRcvr A) impl m sock',
     (SctpSock.getSize (Peer.sock impl)).1 <> 0 ->
     SctpSock.current (SctpSock.peek (Peer.sock impl)) = Some m ->
     SctpSock.streamId m = 5 ->
     Channel.recvChunk canonSize (Peer.version impl)
       (SctpSock.peek (Peer.sock impl)) = OK (chunk, sock') ->
     Peer.recvData msgRcvr chunk a = OK (a', use) ->
     (Peer.hasData (Peer.afterUse use sock') = true ->
        throwsKind (Peer.receiverBody canonSize msgRcvr (a, impl)) KLogicError)
     /\ (forall st, Peer.receiverBody canonSize msgRcvr (a, impl) = OK st ->
           Peer.hasData (Peer.afterUse use sock') = false
           /\ st = Peer.Continue
                     (a', Peer.mkImpl (Peer.version impl)
                            (Peer.afterUse use sock'))))
  /\ (forall (msgRcvr : McastReceiver.McastContentRcvr A) version
        decoder d1 d2 d3,
     McastReceiver.fill 1 decoder = Some d1 ->
     McastReceiver.decode Codec.decode8 d1 = OK (McastReceiver.chunkMsgId, d2) ->
     McastReceiver.deserializeChunk canonSize d2 version = OK (chunk, d3) ->
     McastReceiver.receiveChunk msgRcvr chunk a = OK (a', use) ->
     (McastReceiver.hasData (McastReceiver.afterUse use d3) = true ->
        throwsKind
          (McastReceiver.receiverBody canonSize version msgRcvr (a, decoder))
          KLogicError)
     /\ (forall st,
           McastReceiver.receiverBody canonSize version msgRcvr (a, decoder)
           = OK st ->
           McastReceiver.hasData (McastReceiver.afterUse use d3) = false
           /\ st = McastReceiver.Next
                     (a', McastReceiver.clear (McastReceiver.afterUse use d3)))).
Proof.
  split.
  - intros msgRcvr impl m sock' Hnz Hm Hsid Hrecv Hup.
    rewrite (peer_chunk_pass canonSize msgRcvr a a' impl m chunk sock' use
               Hnz Hm Hsid Hrecv Hup).
    destruct (Peer.hasData (Peer.afterUse use sock')); split.
    + intros _. eexists. split; reflexivity.
    + intros st H. discriminate.
    + intros H. discriminate.
    + intros st H. injection H as <-. auto.
  - intros msgRcvr version decoder d1 d2 d3 Hfill Hid Hchunk Hup.
    rewrite (mcast_chunk_pass canonSize version msgRcvr a a' decoder d1 d2 d3
               chunk use Hfill Hid Hchunk Hup).
    destruct (McastReceiver.hasData (McastReceiver.afterUse use d3)); split.
    + intros _. eexists. split; reflexivity.
    + intros st H. discriminate.
    + intros H. discriminate.
    + intros st H. injection H as <-. auto.
Qed.

(** ** Multicast message ids *)

(** C9: a datagram whose leading message-id byte is neither PROD_INFO_MSGID
    nor CHUNK_MSGID makes the receive loop throw RuntimeError ("Invalid
    message type: <id>"); no upcall is made and the datagram is not
    discarded. *)
Theorem mcast_invalid_message_type {A : Type} (canonSize version : Z)
    (msgRcvr : McastReceiver.McastContentRcvr A) (a : A)
    (decoder d1 d2 : McastReceiver.Dec) (msgId : Z) (fuel : nat) :
  McastReceiver.fill 1 decoder = Some d1 ->
  McastReceiver.decode Codec.decode8 d1 = OK (msgId, d2) ->
  msgId <> McastReceiver.prodInfoMsgId ->
  msgId <> McastReceiver.chunkMsgId ->
  McastReceiver.receiverBody canonSize version msgRcvr (a, decoder)
  = Throw (RuntimeError ("Invalid message type: " +:+ pretty msgId))
  /\ throwsKind
       (McastReceiver.receiverBody canonSize version msgRcvr (a, decoder))
       KRuntimeError
  /\ McastReceiver.run canonSize version msgRcvr (S fuel) (a, decoder)
     = Some (McastReceiver.Threw
               (RuntimeError ("Invalid message type: " +:+ pretty msgId))).
Proof.
  intros Hfill Hid Hp Hc.
  assert (McastReceiver.receiverBody canonSize version msgRcvr (a, decoder)
          = Throw (RuntimeError ("Invalid message type: " +:+ pretty msgId)))
    as Hbody.
  { unfold McastReceiver.receiverBody. rewrite Hfill, Hid.
    cbn -[pretty Z.eqb].
    destruct (Z.eqb_spec msgId McastReceiver.prodInfoMsgId); [contradiction |].
    destruct (Z.eqb_spec msgId McastReceiver.chunkMsgId); [contradiction |].
    reflexivity. }
  split; [exact Hbody |]. split.
  - rewrite Hbody. eexists. split; reflexivity.
  - cbn [McastReceiver.run]. rewrite Hbody. reflexivity.
Qed.

Lemma mcast_invalid_message_type_witness :
  McastReceiver.run 32760 0 (Scenario.mcastRecorder LatentChunk.Drained) 1
    ([], McastReceiver.mkDec None [[3; 0; 0]])
  = Some (McastReceiver.Threw (RuntimeError "Invalid message type: 3")).
Proof.
  apply (mcast_invalid_message_type 32760 0
           (Scenario.mcastRecorder LatentChunk.Drained) []
           (McastReceiver.mkDec None [[3; 0; 0]])
           (McastReceiver.mkDec (Some [3; 0; 0]) [])
           (McastReceiver.mkDec (Some [0; 0]) []) 3 0).
  - reflexivity.
  - reflexivity.
  - discriminate.
  - discriminate.
Defined.

(** ** Codec round trips *)

Lemma decode32_encode32 (x : Z) (rest : list Z) :
  uint32 x ->
  Codec.decode32 ((Codec.encode32 x []).2 ++ rest) = OK (x, rest).
Proof.
  intros Hx. unfold uint32 in Hx. cbn. do 2 f_equal.
  Z.to_euclidean_division_equations. lia.
Qed.

Lemma decode16_encode16 (x : Z) (rest : list Z) :
  uint16 x ->
  Codec.decode16 ((Codec.encode16 x []).2 ++ rest) = OK (x, rest).
Proof.
  intros Hx. unfold uint16 in Hx. cbn. do 2 f_equal.
  Z.to_euclidean_division_equations. lia.
Qed.

Lemma encode32_app (x : Z) (encoder : Codec.Encoder) :
  (Codec.encode32 x encoder).2 = encoder ++ (Codec.encode32 x []).2.
Proof. reflexivity. Qed.

Lemma encode16_app (x : Z) (encoder : Codec.Encoder) :
  (Codec.encode16 x encoder).2 = encoder ++ (Codec.encode16 x []).2.
Proof. reflexivity. Qed.

Lemma asciiOfByte_byteOfAscii (l : list ascii) :
  Codec.asciiOfByte <$> (Codec.byteOfAscii <$> l) = l.
Proof.
  induction l as [| c l IH]; [reflexivity |].
  cbn. rewrite IH. f_equal.
  unfold Codec.asciiOfByte, Codec.byteOfAscii.
  rewrite N2Z.id. apply ascii_N_embedding.
Qed.

Lemma length_list_ascii_of_string (str : string) :
  length (String.list_ascii_of_string str) = String.length str.
Proof. induction str as [| c str IH]; cbn; congruence. Qed.

Lemma decodeString_encodeString (str : string) (rest : list Z) :
  Z.of_nat (String.length str) <= 65535 ->
  Codec.decodeString ((Codec.encodeString str []).2 ++ rest) = OK (str, rest).
Proof.
  intros Hlen. unfold Codec.encodeString, Codec.decodeString.
  set (chars := Codec.byteOfAscii <$> String.list_ascii_of_string str).
  assert (length chars = String.length str) as Hchars
    by (unfold chars; rewrite length_fmap; apply length_list_ascii_of_string).
  change (Codec.encode16 (Z.of_nat (length chars)) [])
    with (2, (Codec.encode16 (Z.of_nat (length chars)) []).2).
  cbn [snd]. rewrite <- app_assoc.
  rewrite decode16_encode16 by (unfold uint16; lia).
  cbn [mbind result_bind].
  rewrite length_app.
  destruct (Z.ltb_spec (Z.of_nat (length chars + length rest))
              (Z.of_nat (length chars))) as [? | _]; [lia |].
  rewrite Nat2Z.id, take_app_length, drop_app_length.
  unfold chars. rewrite asciiOfByte_byteOfAscii.
  rewrite String.string_of_list_ascii_of_string. reflexivity.
Qed.

Lemma ProdIndex_roundtrip (index version : Z) (rest : list Z) :
  uint32 index ->
  ProdIndex.deserialize ((ProdIndex.serialize index [] version).2 ++ rest)
    version = OK (index, rest).
Proof. apply decode32_encode32. Qed.

Lemma VersionMsg_roundtrip (msg : VersionMsg.t) (version : Z) (rest : list Z) :
  uint32 (VersionMsg.getVersion msg) ->
  VersionMsg.deserialize ((VersionMsg.serialize msg [] version).2 ++ rest)
    version = OK (msg, rest).
Proof.
  intros H. unfold VersionMsg.deserialize, VersionMsg.serialize.
  rewrite decode32_encode32 by exact H. destruct msg. reflexivity.
Qed.

Lemma ProdInfo_serialize_bytes (info : ProdInfo.t) (version : Z) :
  (ProdInfo.serialize info [] version).2
  = (Codec.encodeString (ProdInfo.getName info) []).2
    ++ (Codec.encode32 (ProdInfo.getIndex info) []).2
    ++ (Codec.encode32 (ProdInfo.getSize info) []).2
    ++ (Codec.encode16 (ProdInfo.getChunkSize info) []).2.
Proof. cbn. rewrite <- !app_assoc. reflexivity. Qed.

Lemma ProdInfo_roundtrip (info : ProdInfo.t) (version : Z) (rest : list Z) :
  ProdInfo.wf info ->
  ProdInfo.deserialize ((ProdInfo.serialize info [] version).2 ++ rest)
    version = OK (info, rest).
Proof.
  intros (Hname & Hidx & Hsize & Hcs).
  rewrite ProdInfo_serialize_bytes. rewrite <- !app_assoc.
  unfold ProdInfo.deserialize, ProdIndex.deserialize.
  rewrite decodeString_encodeString by exact Hname. cbn [mbind result_bind].
  rewrite decode32_encode32 by exact Hidx. cbn [mbind result_bind].
  rewrite decode32_encode32 by exact Hsize. cbn [mbind result_bind].
  rewrite decode16_encode16 by exact Hcs. destruct info. reflexivity.
Qed.

Lemma ChunkInfo_serialize_bytes (ci : ChunkInfo.t) (version : Z) :
  (ChunkInfo.serialize ci [] version).2
  = (Codec.encode32 (ChunkInfo.prodIndex ci) []).2
    ++ (Codec.encode32 (ChunkInfo.prodSize ci) []).2
    ++ (Codec.encode32 (ChunkInfo.chunkIndex ci) []).2.
Proof. reflexivity. Qed.

Lemma ChunkInfo_ofDecoder_serialize (ci : ChunkInfo.t) (version : Z)
    (rest : list Z) :
  uint32 (ChunkInfo.prodIndex ci) -> uint32 (ChunkInfo.prodSize ci) ->
  uint32 (ChunkInfo.chunkIndex ci) ->
  ChunkInfo.ofDecoder ((ChunkInfo.serialize ci [] version).2 ++ rest) version
  = OK (ci, rest).
Proof.
  intros Hp Hs Hi.
  rewrite ChunkInfo_serialize_bytes. rewrite <- !app_assoc.
  unfold ChunkInfo.ofDecoder, ProdIndex.deserialize.
  rewrite decode32_encode32 by exact Hp. cbn [mbind result_bind].
  rewrite decode32_encode32 by exact Hs. cbn [mbind result_bind].
  rewrite decode32_encode32 by exact Hi. destruct ci. reflexivity.
Qed.

Lemma ChunkInfo_deserialize_serialize (canonSize version : Z) (ci : ChunkInfo.t) :
  uint32 (ChunkInfo.prodIndex ci) -> uint32 (ChunkInfo.prodSize ci) ->
  uint32 (ChunkInfo.chunkIndex ci) ->
  ChunkInfo.deserialize canonSize (ChunkInfo.serialize ci [] version).2 version
  = (x ← ChunkInfo.ctor canonSize (ChunkInfo.prodIndex ci)
           (ChunkInfo.prodSize ci) (ChunkInfo.chunkIndex ci);
     mret (x, [])).
Proof.
  intros Hp Hs Hi. unfold ChunkInfo.deserialize.
  rewrite <- (app_nil_r (ChunkInfo.serialize ci [] version).2).
  rewrite ChunkInfo_ofDecoder_serialize by assumption. reflexivity.
Qed.

(** C6 (as stated, refuted): the ChunkInfo that the decoding constructor
    builds from a message naming chunk 5 of an empty product is a ChunkInfo
    value, yet deserialising its serialisation throws InvalidArgument; so
    does, under the default canonical size 32760, the serialisation of
    chunk 5 of a 100000-byte product constructed under canonical size
    1400. *)
Lemma ChunkInfo_roundtrip_can_throw :
  ChunkInfo.ofDecoder [0; 0; 0; 0; 0; 0; 0; 0; 0; 0; 0; 5] 0
  = OK (ChunkInfo.mk 0 0 5, [])
  /\ throwsKind
       (ChunkInfo.deserialize 32760
          (ChunkInfo.serialize (ChunkInfo.mk 0 0 5) [] 0).2 0)
       KInvalidArgument
  /\ ChunkInfo.ctor 1400 7 100000 5 = OK (ChunkInfo.mk 7 100000 5)
  /\ throwsKind
       (ChunkInfo.deserialize 32760
          (ChunkInfo.serialize (ChunkInfo.mk 7 100000 5) [] 0).2 0)
       KInvalidArgument.
Proof.
  split; [reflexivity |]. split; [| split; [reflexivity |]].
  - eexists. split; [vm_compute; reflexivity | reflexivity].
  - eexists. split; [vm_compute; reflexivity | reflexivity].
Qed.

(** C6 (amended): for every protocol version, deserialising the serialisation
    gives back an equal value for every ProdIndex, VersionMsg and ProdInfo,
    and for every ChunkInfo that the validating constructor accepts under the
    canonical chunk size in force; for a ChunkInfo it rejects,
    deserialisation throws what the constructor throws. *)
Theorem codec_roundtrip (canonSize version : Z) :
  (forall index, uint32 index ->
     exists y, ProdIndex.deserialize (ProdIndex.serialize index [] version).2
                 version = OK (y, [])
       /\ ProdIndex.eqb y index = true)
  /\ (forall msg, uint32 (VersionMsg.getVersion msg) ->
     exists y, VersionMsg.deserialize (VersionMsg.serialize msg [] version).2
                 version = OK (y, [])
       /\ VersionMsg.eqb y msg = true)
  /\ (forall info, ProdInfo.wf info ->
     exists y, ProdInfo.deserialize (ProdInfo.serialize info [] version).2
                 version = OK (y, [])
       /\ ProdInfo.eqb y info = true)
  /\ (forall prodIndex prodSize chunkIndex ci,
     uint32 prodIndex -> uint32 prodSize -> uint32 chunkIndex ->
     ChunkInfo.ctor canonSize prodIndex prodSize chunkIndex = OK ci ->
     exists y, ChunkInfo.deserialize canonSize
                 (ChunkInfo.serialize ci [] version).2 version = OK (y, [])
       /\ ChunkInfo.eqb y ci = true)
  /\ (forall ci e,
     uint32 (ChunkInfo.prodIndex ci) -> uint32 (ChunkInfo.prodSize ci) ->
     uint32 (ChunkInfo.chunkIndex ci) ->
     ChunkInfo.ctor canonSize (ChunkInfo.prodIndex ci) (ChunkInfo.prodSize ci)
       (ChunkInfo.chunkIndex ci) = Throw e ->
     ChunkInfo.deserialize canonSize (ChunkInfo.serialize ci [] version).2
       version = Throw e).
Proof.
  repeat split.
  - intros index H. exists index. split; [| apply Z.eqb_refl].
    rewrite <- (app_nil_r (ProdIndex.serialize index [] version).2).
    apply ProdIndex_roundtrip, H.
  - intros msg H. exists msg. split; [| apply Z.eqb_refl].
    rewrite <- (app_nil_r (VersionMsg.serialize msg [] version).2).
    apply VersionMsg_roundtrip, H.
  - intros info H. exists info. split.
    + rewrite <- (app_nil_r (ProdInfo.serialize info [] version).2).
      apply ProdInfo_roundtrip, H.
    + unfold ProdInfo.eqb. rewrite String.eqb_refl, !Z.eqb_refl. reflexivity.
  - intros p s i ci Hp Hs Hi Hctor. exists ci.
    assert (ci = ChunkInfo.mk p s i) as ->.
    { unfold ChunkInfo.ctor in Hctor.
      destruct (negb (i =? 0) && (i >=? ChunkInfo.numChunks canonSize s));
        congruence. }
    split.
    + rewrite ChunkInfo_deserialize_serialize by assumption.
      cbn [ChunkInfo.prodIndex ChunkInfo.prodSize ChunkInfo.chunkIndex].
      rewrite Hctor. reflexivity.
    + unfold ChunkInfo.eqb. rewrite !Z.eqb_refl. reflexivity.
  - intros ci e Hp Hs Hi Hctor.
    rewrite ChunkInfo_deserialize_serialize by assumption.
    rewrite Hctor. reflexivity.
Qed.

(** ** Product store *)

Lemma status_new (c : bool) :
  AddStatus.isComplete (AddStatus.setCompleteIf c (AddStatus.setNew AddStatus.init)) = c
  /\ AddStatus.isDuplicate (AddStatus.setCompleteIf c (AddStatus.setNew AddStatus.init)) = false.
Proof. destruct c; split; reflexivity. Qed.

Lemma status_dup (c : bool) :
  AddStatus.isComplete (AddStatus.setCompleteIf c (AddStatus.setDuplicate AddStatus.init)) = c
  /\ AddStatus.isDuplicate (AddStatus.setCompleteIf c (AddStatus.setDuplicate AddStatus.init)) = true.
Proof. destruct c; split; reflexivity. Qed.

Lemma status_merge (c : bool) :
  AddStatus.isComplete (AddStatus.setCompleteIf c AddStatus.init) = c
  /\ AddStatus.isDuplicate (AddStatus.setCompleteIf c AddStatus.init) = false.
Proof. destruct c; split; reflexivity. Qed.

Lemma seen_chunk_nonempty (b : bool) (i : Z) (S : gset Z) :
  (b, {[i]} ∪ S) <> (false, ∅).
Proof.
  intros Heq. apply (f_equal snd) in Heq. cbn in Heq. set_solver.
Qed.

Section StoreCompletion.

Variable pi : ProdInfo.t.

Lemma allPresent_elem (S : gset Z) (i : Z) :
  ProdStore.allPresent pi S = true ->
  0 <= i < ProdInfo.getNumChunks pi -> i ∈ S.
Proof.
  unfold ProdStore.allPresent. rewrite forallb_forall. intros H Hi.
  specialize (H i). rewrite bool_decide_eq_true in H. apply H.
  apply list_elem_of_In, elem_of_seqZ. lia.
Qed.

Lemma whole_alreadySeen (seen : ProdStore.Seen) (item : ProdStore.Item) :
  ProdStore.whole pi seen = true -> ProdStore.validItem pi item ->
  ProdStore.alreadySeen seen item = true.
Proof.
  unfold ProdStore.whole. intros [Hb Hall]%andb_true_iff Hv.
  destruct item as [| i data]; cbn; [exact Hb |].
  apply bool_decide_eq_true. eapply allPresent_elem; eauto.
Qed.

Lemma alreadySeen_seenAfter (seen : ProdStore.Seen) (item : ProdStore.Item) :
  ProdStore.alreadySeen seen item = true ->
  ProdStore.seenAfter seen item = seen.
Proof.
  destruct seen as [b S], item as [| i data]; cbn.
  - intros ->. reflexivity.
  - rewrite bool_decide_eq_true. intros H. f_equal. set_solver.
Qed.

Lemma outProduct_whole (e : ProdStore.ProductEntry) (b c : bool) :
  ProdStore.info e = (if b then Some pi else None) ->
  ProdStore.complete e = b && c ->
  ProdStore.outProduct e
  = if b && c then Some (ProdStore.mkProduct pi (ProdStore.buffer e)) else None.
Proof.
  unfold ProdStore.outProduct. intros -> ->. destruct b, c; reflexivity.
Qed.

(** One addition: the entry keeps recording what it was given, the status
    says whether the entry is now whole and whether the item was given
    before, the product is handed back iff the entry is whole, and a repeated
    item leaves the store as it was. *)
Lemma addItem_agrees (store : ProdStore.t) (seen : ProdStore.Seen)
    (item : ProdStore.Item) :
  ProdStore.agrees pi store seen -> ProdStore.validItem pi item ->
  ProdStore.agrees pi (ProdStore.after (ProdStore.addItem pi item store))
    (ProdStore.seenAfter seen item)
  /\ AddStatus.isComplete (ProdStore.status (ProdStore.addItem pi item store))
     = ProdStore.whole pi (ProdStore.seenAfter seen item)
  /\ AddStatus.isDuplicate (ProdStore.status (ProdStore.addItem pi item store))
     = ProdStore.alreadySeen seen item
  /\ (ProdStore.alreadySeen seen item = true ->
      ProdStore.after (ProdStore.addItem pi item store) = store)
  /\ (if ProdStore.whole pi (ProdStore.seenAfter seen item)
      then exists data,
             ProdStore.product (ProdStore.addItem pi item store)
             = Some (ProdStore.mkProduct pi data)
      else ProdStore.product (ProdStore.addItem pi item store) = None).
Proof.
  unfold ProdStore.agrees, ProdStore.whole. destruct seen as [b S].
  destruct store as [ents ff]. cbn [ProdStore.entries].
  intros Hag Hv.
  destruct item as [| i data].
  - (* the ProdInfo *)
    cbn [ProdStore.seenAfter ProdStore.alreadySeen fst snd].
    unfold ProdStore.whole. cbn [fst snd].
    unfold ProdStore.addItem, ProdStore.addInfo.
    cbn [ProdStore.entries ProdStore.fifo].
    destruct (ents !! ProdInfo.getIndex pi) as [e |] eqn:He.
    + destruct Hag as (Hne & Hinfo & Hpres & Hcomp). cbn [fst snd] in Hinfo, Hpres, Hcomp.
      cbn [fst snd] in Hcomp.
      destruct b.
      * rewrite Hinfo.
        cbn [ProdStore.after ProdStore.status ProdStore.product
             ProdStore.entries ProdStore.seenAfter ProdStore.alreadySeen
             ProdStore.whole fst snd].
        rewrite He, (outProduct_whole e true _ Hinfo Hcomp), Hcomp.
        split; [auto |]. split; [apply status_dup |].
        split; [apply status_dup |]. split; [reflexivity |].
        destruct (true && ProdStore.allPresent pi S); eauto.
      * rewrite Hinfo.
        cbn [ProdStore.after ProdStore.status ProdStore.product
             ProdStore.entries ProdStore.seenAfter ProdStore.alreadySeen
             ProdStore.whole ProdStore.complete fst snd].
        rewrite lookup_insert_eq. rewrite Hpres.
        split; [cbn; auto |]. split; [apply status_merge |].
        split; [apply status_merge |]. split; [intros; discriminate |].
        unfold ProdStore.outProduct. cbn.
        destruct (ProdStore.allPresent pi S); eauto.
    + injection Hag as -> ->.
      cbn [ProdStore.after ProdStore.status ProdStore.product
           ProdStore.entries ProdStore.seenAfter ProdStore.alreadySeen
           ProdStore.whole ProdStore.complete fst snd].
      rewrite lookup_insert_eq.
      split; [cbn; auto |]. split; [apply status_new |].
      split; [apply status_new |]. split; [intros; discriminate |].
      unfold ProdStore.outProduct. cbn.
      destruct (ProdStore.allPresent pi ∅); eauto.
  - (* a chunk *)
    cbn in Hv.
    cbn [ProdStore.seenAfter ProdStore.alreadySeen fst snd].
    unfold ProdStore.whole. cbn [fst snd].
    unfold ProdStore.addItem, ProdStore.addChunk.
    cbn [ProdStore.entries ProdStore.fifo LatentChunk.getInfo
         ChunkInfo.prodIndex ChunkInfo.chunkIndex].
    destruct (ents !! ProdInfo.getIndex pi) as [e |] eqn:He.
    + destruct Hag as (Hne & Hinfo & Hpres & Hcomp). cbn [fst snd] in Hinfo, Hpres, Hcomp.
      cbn [fst snd] in Hcomp.
      cbn [ProdStore.alreadySeen ProdStore.seenAfter ProdStore.whole fst snd].
      rewrite Hpres.
      destruct (bool_decide (i ∈ S)) eqn:Hin.
      * apply bool_decide_eq_true in Hin.
        cbn [ProdStore.after ProdStore.status ProdStore.product
             ProdStore.entries].
        rewrite He, (outProduct_whole e b _ Hinfo Hcomp), Hcomp.
        assert ({[i]} ∪ S = S) as -> by set_solver.
        split; [auto |]. split; [apply status_dup |].
        split; [apply status_dup |]. split; [reflexivity |].
        destruct (b && ProdStore.allPresent pi S); eauto.
      * apply bool_decide_eq_false in Hin.
        pose proof (seen_chunk_nonempty b i S) as Hne'.
        rewrite Hinfo. destruct b.
        -- destruct (Z.leb_spec 0 i); [| lia].
           destruct (Z.ltb_spec i (ProdInfo.getNumChunks pi)); [| lia].
           cbn [andb ProdStore.after ProdStore.status ProdStore.product
                ProdStore.entries ProdStore.complete].
           rewrite lookup_insert_eq.
           split; [cbn; auto |]. split; [apply status_merge |].
           split; [apply status_merge |]. split; [intros; discriminate |].
           unfold ProdStore.outProduct. cbn.
           destruct (ProdStore.allPresent pi ({[i]} ∪ S)); eauto.
        -- cbn [andb ProdStore.after ProdStore.status ProdStore.product
                ProdStore.entries ProdStore.complete].
           rewrite lookup_insert_eq.
           split; [cbn; auto |]. split; [reflexivity |].
           split; [reflexivity |]. split; [intros; discriminate |].
           reflexivity.
    + injection Hag as -> ->.
      cbn [ProdStore.after ProdStore.status ProdStore.product
           ProdStore.entries ProdStore.seenAfter ProdStore.alreadySeen
           ProdStore.whole ProdStore.complete fst snd andb].
      rewrite lookup_insert_eq.
      case_bool_decide as Hin.
      { set_solver. }
      split.
      { cbn. split; [apply seen_chunk_nonempty |]. split; [reflexivity |].
        split; [set_solver | reflexivity]. }
      split; [reflexivity |]. split; [reflexivity |].
      split; [intros; discriminate | reflexivity].
Qed.

Lemma agrees_isComplete (store : ProdStore.t) (seen : ProdStore.Seen) :
  ProdStore.agrees pi store seen ->
  ProdStore.isComplete (ProdInfo.getIndex pi) store = ProdStore.whole pi seen.
Proof.
  unfold ProdStore.agrees, ProdStore.isComplete.
  destruct (ProdStore.entries store !! ProdInfo.getIndex pi) as [e |].
  - intros (_ & _ & _ & H). exact H.
  - intros ->. reflexivity.
Qed.

(** Once the entry is whole, every further addition of the product is a
    duplicate on a complete entry and changes nothing. *)
Lemma addItems_whole (items : list ProdStore.Item) (store : ProdStore.t)
    (seen : ProdStore.Seen) :
  ProdStore.agrees pi store seen -> ProdStore.whole pi seen = true ->
  Forall (ProdStore.validItem pi) items ->
  forall (j : nat) r,
    ProdStore.addItems pi items store !! j = Some r ->
    AddStatus.isComplete (ProdStore.status r) = true
    /\ AddStatus.isDuplicate (ProdStore.status r) = true
    /\ ProdStore.after r = store.
Proof.
  intros Hag Hw Hv. induction Hv as [| item items Hitem Hitems IH];
    intros j r Hj; [discriminate |].
  destruct (addItem_agrees store seen item Hag Hitem)
    as (_ & Hc & Hd & Hsame & _).
  pose proof (whole_alreadySeen seen item Hw Hitem) as Hseen.
  rewrite (alreadySeen_seenAfter _ _ Hseen) in Hc.
  specialize (Hsame Hseen).
  cbn [ProdStore.addItems] in Hj. destruct j as [| j].
  - cbn in Hj. injection Hj as <-. rewrite Hc, Hd. auto.
  - cbn in Hj. rewrite Hsame in Hj. exact (IH j r Hj).
Qed.

Lemma whole_seenAfter_fresh (seen : ProdStore.Seen) (item : ProdStore.Item) :
  ProdStore.whole pi seen = false ->
  ProdStore.whole pi (ProdStore.seenAfter seen item) = true ->
  ProdStore.alreadySeen seen item = false.
Proof.
  intros Hn Hw. destruct (ProdStore.alreadySeen seen item) eqn:Hs; [| reflexivity].
  rewrite (alreadySeen_seenAfter _ _ Hs) in Hw. congruence.
Qed.

(** From an entry that is not whole, a sequence of additions that makes it
    whole has one addition at which the entry becomes complete. *)
Lemma addItems_shape (items : list ProdStore.Item) :
  forall (store : ProdStore.t) (seen : ProdStore.Seen),
  ProdStore.agrees pi store seen ->
  Forall (ProdStore.validItem pi) items ->
  ProdStore.whole pi seen = false ->
  ProdStore.whole pi (foldl ProdStore.seenAfter seen items) = true ->
  exists (k : nat) r,
    ProdStore.addItems pi items store !! k = Some r
    /\ AddStatus.isComplete (ProdStore.status r) = true
    /\ AddStatus.isDuplicate (ProdStore.status r) = false
    /\ (exists data, ProdStore.product r = Some (ProdStore.mkProduct pi data))
    /\ ProdStore.isComplete (ProdInfo.getIndex pi) (ProdStore.after r) = true
    /\ (forall (j : nat) r', (j < k)%nat ->
          ProdStore.addItems pi items store !! j = Some r' ->
          AddStatus.isComplete (ProdStore.status r') = false
          /\ ProdStore.product r' = None
          /\ ProdStore.isComplete (ProdInfo.getIndex pi) (ProdStore.after r')
             = false)
    /\ (forall (j : nat) r', (k < j)%nat ->
          ProdStore.addItems pi items store !! j = Some r' ->
          AddStatus.isComplete (ProdStore.status r') = true
          /\ AddStatus.isDuplicate (ProdStore.status r') = true
          /\ ProdStore.after r' = ProdStore.after r).
Proof.
  induction items as [| item items IH]; intros store seen Hag Hv Hn Hw;
    [cbn in Hw; congruence |].
  inversion Hv as [| ? ? Hitem Hitems]; subst.
  destruct (addItem_agrees store seen item Hag Hitem)
    as (Hag' & Hc & Hd & _ & Hout).
  cbn [foldl] in Hw. cbn [ProdStore.addItems].
  set (r1 := ProdStore.addItem pi item store) in *.
  destruct (ProdStore.whole pi (ProdStore.seenAfter seen item)) eqn:Hw1.
  - exists 0%nat, r1.
    split; [reflexivity |]. split; [exact Hc |]. split.
    { rewrite Hd. apply whole_seenAfter_fresh; assumption. }
    split; [exact Hout |].
    split. { rewrite (agrees_isComplete _ _ Hag'). exact Hw1. }
    split. { intros j r' Hlt. lia. }
    intros j r' Hlt Hj. destruct j as [| j]; [lia |]. cbn in Hj.
    exact (addItems_whole items _ _ Hag' Hw1 Hitems j r' Hj).
  - destruct (IH _ _ Hag' Hitems Hw1 Hw)
      as (k & r & Hk & Hkc & Hkd & Hko & Hkw & Hbefore & Hafter).
    exists (S k), r.
    split; [exact Hk |]. split; [exact Hkc |]. split; [exact Hkd |].
    split; [exact Hko |]. split; [exact Hkw |]. split.
    + intros j r' Hlt Hj. destruct j as [| j].
      * cbn in Hj. injection Hj as <-. split; [exact Hc |].
        split; [exact Hout |].
        rewrite (agrees_isComplete _ _ Hag'). exact Hw1.
      * cbn in Hj. apply (Hbefore j r'); [lia | exact Hj].
    + intros j r' Hlt Hj. destruct j as [| j]; [lia |].
      cbn in Hj. apply (Hafter j r'); [lia | exact Hj].
Qed.

Lemma foldl_seenAfter_mono (items : list ProdStore.Item) :
  forall seen : ProdStore.Seen,
  (seen.1 = true -> (foldl ProdStore.seenAfter seen items).1 = true)
  /\ (forall i, i ∈ seen.2 -> i ∈ (foldl ProdStore.seenAfter seen items).2).
Proof.
  induction items as [| item items IH]; intros seen; [auto |].
  cbn [foldl]. destruct (IH (ProdStore.seenAfter seen item)) as [IH1 IH2].
  split.
  - intros Hb. apply IH1. destruct item; cbn; auto.
  - intros i Hi. apply IH2. destruct item; cbn; [exact Hi | set_solver].
Qed.

Lemma covers_whole (items : list ProdStore.Item) (seen : ProdStore.Seen) :
  ProdStore.covers pi items ->
  ProdStore.whole pi (foldl ProdStore.seenAfter seen items) = true.
Proof.
  intros [Hinfo Hchunks]. unfold ProdStore.whole. apply andb_true_iff. split.
  - clear Hchunks. revert seen.
    induction items as [| item items IH]; intros seen;
      [apply elem_of_nil in Hinfo; contradiction |].
    cbn [foldl]. apply elem_of_cons in Hinfo as [<- | Hin].
    + apply foldl_seenAfter_mono. reflexivity.
    + apply IH. exact Hin.
  - unfold ProdStore.allPresent. apply forallb_forall. intros i Hi.
    apply list_elem_of_In, elem_of_seqZ in Hi.
    apply bool_decide_eq_true.
    destruct (Hchunks i) as [data Hdata]; [lia |].
    clear Hchunks Hinfo Hi. revert seen.
    induction items as [| item items IH]; intros seen;
      [apply elem_of_nil in Hdata; contradiction |].
    cbn [foldl]. apply elem_of_cons in Hdata as [<- | Hin].
    + apply foldl_seenAfter_mono. cbn. set_solver.
    + apply IH. exact Hin.
Qed.

End StoreCompletion.

(** C2: from a store that has no entry for a product, in any sequence of
    additions of the product's ProdInfo and chunks that holds the ProdInfo
    and every chunk, exactly one addition, the first that makes the entry
    whole, reports isComplete without isDuplicate, hands back the product and
    leaves the entry complete; no earlier addition reports isComplete or
    hands back a product, and every later one reports isComplete and
    isDuplicate and leaves the store as it is. *)
Theorem store_completes_exactly_once (pi : ProdInfo.t) (store : ProdStore.t)
    (items : list ProdStore.Item) :
  ProdStore.entries store !! ProdInfo.getIndex pi = None ->
  Forall (ProdStore.validItem pi) items ->
  ProdStore.covers pi items ->
  exists (k : nat) r,
    ProdStore.addItems pi items store !! k = Some r
    /\ AddStatus.isComplete (ProdStore.status r) = true
    /\ AddStatus.isDuplicate (ProdStore.status r) = false
    /\ (exists data, ProdStore.product r = Some (ProdStore.mkProduct pi data))
    /\ ProdStore.isComplete (ProdInfo.getIndex pi) (ProdStore.after r) = true
    /\ (forall (j : nat) r', (j < k)%nat ->
          ProdStore.addItems pi items store !! j = Some r' ->
          AddStatus.isComplete (ProdStore.status r') = false
          /\ ProdStore.product r' = None
          /\ ProdStore.isComplete (ProdInfo.getIndex pi) (ProdStore.after r')
             = false)
    /\ (forall (j : nat) r', (k < j)%nat ->
          ProdStore.addItems pi items store !! j = Some r' ->
          AddStatus.isComplete (ProdStore.status r') = true
          /\ AddStatus.isDuplicate (ProdStore.status r') = true
          /\ ProdStore.after r' = ProdStore.after r).
Proof.
  intros Hnone Hv Hcov.
  apply (addItems_shape pi items store (false, ∅)).
  - unfold ProdStore.agrees. rewrite Hnone. reflexivity.
  - exact Hv.
  - reflexivity.
  - apply covers_whole. exact Hcov.
Qed.

Lemma store_completes_exactly_once_witness :
  exists (k : nat) r,
    ProdStore.addItems Scenario.smallInfo Scenario.reverseOrder
      Scenario.emptyStore !! k = Some r
    /\ AddStatus.isComplete (ProdStore.status r) = true
    /\ AddStatus.isDuplicate (ProdStore.status r) = false.
Proof.
  destruct (store_completes_exactly_once Scenario.smallInfo Scenario.emptyStore
              Scenario.reverseOrder) as (k & r & Hk & Hc & Hd & _).
  - reflexivity.
  - repeat constructor; vm_compute; intuition discriminate.
  - split.
    + unfold Scenario.reverseOrder. set_solver.
    + intros i Hi. change (ProdInfo.getNumChunks Scenario.smallInfo) with 4 in Hi.
      exists (replicate 1024 170).
      assert (i = 0 \/ i = 1 \/ i = 2 \/ i = 3) as [-> | [-> | [-> | ->]]]
        by lia; unfold Scenario.reverseOrder, Scenario.smallChunk; set_solver.
  - exists k, r. auto.
Defined.

(** C3: a chunk that the store has drained is present; adding a chunk that is
    present again reports isDuplicate, discards the chunk and leaves the
    store (entries with their bitmaps and buffers, and the FIFO) exactly as
    it was after the first addition. *)
Theorem addChunk_twice_is_idempotent (store store1 : ProdStore.t)
    (chunk : LatentChunk.t) (data : list Z) (status1 : AddStatus.t)
    (out1 : option ProdStore.Product) (use1 : LatentChunk.Use) :
  ProdStore.addChunk chunk data store = (status1, out1, use1, store1) ->
  (use1 = LatentChunk.Drained ->
     ProdStore.haveChunk (LatentChunk.getInfo chunk) store1 = true)
  /\ (ProdStore.haveChunk (LatentChunk.getInfo chunk) store1 = true ->
      exists status2 out2,
        ProdStore.addChunk chunk data store1
        = (status2, out2, LatentChunk.Discarded, store1)
        /\ AddStatus.isDuplicate status2 = true).
Proof.
  intros Hadd. split.
  - intros ->. unfold ProdStore.addChunk in Hadd. unfold ProdStore.haveChunk.
    destruct (ProdStore.entries store
                !! ChunkInfo.prodIndex (LatentChunk.getInfo chunk))
      as [e |] eqn:He.
    + destruct (bool_decide
                  (ChunkInfo.chunkIndex (LatentChunk.getInfo chunk)
                     ∈ ProdStore.present e)); [discriminate |].
      destruct (ProdStore.info e) as [pi |].
      * destruct ((0 <=? ChunkInfo.chunkIndex (LatentChunk.getInfo chunk))
                  && (ChunkInfo.chunkIndex (LatentChunk.getInfo chunk)
                        <? ProdInfo.getNumChunks pi)); [| discriminate].
        injection Hadd as _ _ <-. cbn. rewrite lookup_insert_eq. cbn.
        apply bool_decide_eq_true. set_solver.
      * injection Hadd as _ _ <-. cbn. rewrite lookup_insert_eq. cbn.
        apply bool_decide_eq_true. set_solver.
    + injection Hadd as _ _ <-. cbn. rewrite lookup_insert_eq. cbn.
      apply bool_decide_eq_true. set_solver.
  - clear Hadd. unfold ProdStore.haveChunk, ProdStore.addChunk.
    destruct (ProdStore.entries store1
                !! ChunkInfo.prodIndex (LatentChunk.getInfo chunk))
      as [e |]; [| discriminate].
    intros ->. eexists _, _. split; [reflexivity |]. apply status_dup.
Qed.

Lemma addChunk_twice_is_idempotent_witness :
  exists status2 out2,
    ProdStore.addChunk Scenario.latentChunk2 [170]
      (ProdStore.addChunk Scenario.latentChunk2 [170] Scenario.emptyStore).2
    = (status2, out2, LatentChunk.Discarded,
       (ProdStore.addChunk Scenario.latentChunk2 [170] Scenario.emptyStore).2)
    /\ AddStatus.isDuplicate status2 = true.
Proof.
  destruct (addChunk_twice_is_idempotent Scenario.emptyStore
              (ProdStore.addChunk Scenario.latentChunk2 [170]
                 Scenario.emptyStore).2
              Scenario.latentChunk2 [170]
              (AddStatus.setNew AddStatus.init) None LatentChunk.Drained)
    as [H1 H2].
  - reflexivity.
  - apply H2, H1. reflexivity.
Defined.

(** ** Scenarios *)

(** Peer transmission: the receiver's upcalls see the five messages, and the
    loop returns when the sender has closed. *)
Example peer_transmission :
  exists impl,
    Scenario.runTestReceiver LatentChunk.Drained
    = Some (OK ([Scenario.ProdNotice Scenario.prodInfo;
                 Scenario.ChunkNotice Scenario.chunkInfo;
                 Scenario.ProdRequest Scenario.prodIndex;
                 Scenario.ChunkRequest Scenario.chunkInfo;
                 Scenario.Data (LatentChunk.mk Scenario.chunkInfo 2000)],
                impl)).
Proof. eexists. vm_compute. reflexivity. Qed.

(** The same transmission to a receiver that leaves the chunk alone. *)
Example peer_transmission_undrained :
  Scenario.runTestReceiver LatentChunk.Untouched
  = Some (Throw (LogicError "Latent chunk-of-data still has data")).
Proof. vm_compute. reflexivity. Qed.

(** Store completion, ProdInfo first: new, then three merges, then complete. *)
Example store_completion_in_order :
  ProdStore.status
    <$> ProdStore.addItems Scenario.smallInfo Scenario.inOrder
          Scenario.emptyStore
  = [2; 0; 0; 0; 1].
Proof. vm_compute. reflexivity. Qed.

(** Store completion, chunks first: complete on the ProdInfo, then a
    duplicate on the complete entry. *)
Example store_completion_reverse_order :
  ProdStore.status
    <$> ProdStore.addItems Scenario.smallInfo Scenario.reverseOrder
          Scenario.emptyStore
  = [2; 0; 0; 0; 1; 5].
Proof. vm_compute. reflexivity. Qed.

(** Multicast reception: a ProdInfo and a chunk are delivered, then the
    datagram with message id 7 ends the loop. *)
Example mcast_reception :
  McastReceiver.run 32760 0 (Scenario.mcastRecorder LatentChunk.Drained) 5
    ([], McastReceiver.mkDec None Scenario.datagrams)
  = Some (McastReceiver.Threw (RuntimeError "Invalid message type: 7"))
  /\ McastReceiver.run 32760 0 (Scenario.mcastRecorder LatentChunk.Drained) 5
       ([], McastReceiver.mkDec None (take 2 Scenario.datagrams))
     = Some (McastReceiver.Waiting
               ([Scenario.ProdNotice Scenario.prodInfo;
                 Scenario.Data (LatentChunk.mk Scenario.chunkInfo 2000)],
                McastReceiver.mkDec None []))
  /\ McastReceiver.run 32760 0 (Scenario.mcastRecorder LatentChunk.Untouched) 5
       ([], McastReceiver.mkDec None Scenario.datagrams)
     = Some (McastReceiver.Threw (LogicError "Latent chunk-of-data not drained")).
Proof. repeat split; vm_compute; reflexivity. Qed.

(** * Further properties *)

(** ** ChunkInfo *)

Lemma ProdIndex_ltb_irrefl (index : ProdIndex.t) :
  ProdIndex.ltb index index = false.
Proof. unfold ProdIndex.ltb. rewrite Z.sub_diag. reflexivity. Qed.

Lemma ProdIndex_ltb_asym (index that : ProdIndex.t) :
  ProdIndex.ltb index that = true -> ProdIndex.ltb that index = false.
Proof.
  unfold ProdIndex.ltb, wrap32. intros H.
  apply andb_true_iff in H as [H0 H1]. apply Z.ltb_lt in H0, H1.
  apply andb_false_iff. right. apply Z.ltb_ge.
  Z.to_euclidean_division_equations. lia.
Qed.

(** X1: [isEarlierThan] orders chunks by product first and by chunk index
    within a product.  Whenever ProdIndex's [operator<] is irreflexive and
    asymmetric, as the wrap-around comparison of product indexes is,
    [isEarlierThan] is irreflexive and asymmetric; between chunks of
    different products it is the comparison of their product indexes, and
    between chunks of one product it is the order of their chunk indexes:
    transitive, and leaving two chunks unordered exactly when their chunk
    indexes are equal.  The product size plays no part. *)
Theorem isEarlierThan_by_product_then_chunk (ltIndex : Z -> Z -> bool)
    (a b c : ChunkInfo.t) :
  (forall x, ltIndex x x = false) ->
  (forall x y, ltIndex x y = true -> ltIndex y x = false) ->
  ChunkInfo.isEarlierThanBy ltIndex a a = false
  /\ (ChunkInfo.isEarlierThanBy ltIndex a b = true ->
      ChunkInfo.isEarlierThanBy ltIndex b a = false)
  /\ (ChunkInfo.prodIndex a <> ChunkInfo.prodIndex b ->
      ChunkInfo.isEarlierThanBy ltIndex a b
      = ltIndex (ChunkInfo.prodIndex a) (ChunkInfo.prodIndex b))
  /\ (ChunkInfo.prodIndex a = ChunkInfo.prodIndex b ->
      ChunkInfo.isEarlierThanBy ltIndex a b
      = (ChunkInfo.chunkIndex a <? ChunkInfo.chunkIndex b))
  /\ (ChunkInfo.prodIndex a = ChunkInfo.prodIndex b ->
      ChunkInfo.prodIndex b = ChunkInfo.prodIndex c ->
      ChunkInfo.isEarlierThanBy ltIndex a b = true ->
      ChunkInfo.isEarlierThanBy ltIndex b c = true ->
      ChunkInfo.isEarlierThanBy ltIndex a c = true)
  /\ (ChunkInfo.prodIndex a = ChunkInfo.prodIndex b ->
      (ChunkInfo.isEarlierThanBy ltIndex a b = false
       /\ ChunkInfo.isEarlierThanBy ltIndex b a = false
       <-> ChunkInfo.chunkIndex a = ChunkInfo.chunkIndex b)).
Proof.
  intros Hirr Hasym.
  destruct a as [pa sa ia], b as [pb sb ib], c as [pc sc ic].
  unfold ChunkInfo.isEarlierThanBy. cbn.
  assert (forall p i j, ltIndex p p || (p =? p) && (i <? j) = (i <? j)) as Hsame.
  { intros p i j. rewrite Hirr, Z.eqb_refl. reflexivity. }
  split; [| split; [| split; [| split; [| split]]]].
  - rewrite Hsame. apply Z.ltb_irrefl.
  - intros H. apply orb_true_iff in H as [H | H].
    + rewrite (Hasym _ _ H). cbn.
      destruct (Z.eqb_spec pb pa) as [-> | _]; [| reflexivity].
      rewrite Hirr in H. discriminate.
    + apply andb_true_iff in H as [Hp Hi].
      apply Z.eqb_eq in Hp. subst pb. apply Z.ltb_lt in Hi.
      rewrite Hsame. apply Z.ltb_ge. lia.
  - intros Hne. destruct (Z.eqb_spec pa pb) as [? | _]; [contradiction |].
    cbn. apply orb_false_r.
  - intros ->. apply Hsame.
  - intros -> ->. rewrite !Hsame. intros H1 H2.
    apply Z.ltb_lt in H1, H2. apply Z.ltb_lt. lia.
  - intros ->. rewrite !Hsame. split.
    + intros [H1 H2]. apply Z.ltb_ge in H1, H2. lia.
    + intros ->. rewrite Z.ltb_irrefl. auto.
Qed.

Lemma isEarlierThan_by_product_then_chunk_witness :
  ChunkInfo.isEarlierThan (ChunkInfo.mk 4294967295 10 3) (ChunkInfo.mk 0 20 1)
  = true
  /\ ChunkInfo.isEarlierThan (ChunkInfo.mk 0 20 1)
       (ChunkInfo.mk 4294967295 10 3)
     = false.
Proof.
  split; [reflexivity |].
  destruct (isEarlierThan_by_product_then_chunk ProdIndex.ltb
              (ChunkInfo.mk 4294967295 10 3) (ChunkInfo.mk 0 20 1)
              (ChunkInfo.mk 0 20 1))
    as (_ & H & _).
  - intros x. apply ProdIndex_ltb_irrefl.
  - intros x y. apply ProdIndex_ltb_asym.
  - apply H. reflexivity.
Defined.

(** Across products the wrap-around comparison makes [isEarlierThan] cyclic,
    hence not transitive: each of these three chunks is earlier than the
    next, and the last is earlier than the first. *)
Example isEarlierThan_cycle :
  ChunkInfo.isEarlierThan (ChunkInfo.mk 0 1 0) (ChunkInfo.mk 2000000000 1 0)
  = true
  /\ ChunkInfo.isEarlierThan (ChunkInfo.mk 2000000000 1 0)
       (ChunkInfo.mk 4000000000 1 0)
     = true
  /\ ChunkInfo.isEarlierThan (ChunkInfo.mk 4000000000 1 0) (ChunkInfo.mk 0 1 0)
     = true.
Proof. repeat split. Qed.

(** X2: the canonical chunk size stays a non-zero 16-bit value through any
    sequence of [setCanonSize] calls: a call with 0 throws InvalidArgument
    and changes nothing, any other call installs its argument, so the value
    in force is the last non-zero argument, if any. *)
Theorem setCanonSize_keeps_nonzero (sizes : list Z) (canonSize : Z) :
  ChunkInfo.canonOk canonSize -> Forall uint16 sizes ->
  ChunkInfo.canonOk (ChunkInfo.setCanonSizes sizes canonSize)
  /\ ChunkInfo.setCanonSizes sizes canonSize
     = default canonSize (last (filter (fun size => size <> 0) sizes))
  /\ throwsKind (ChunkInfo.setCanonSize 0) KInvalidArgument
  /\ ChunkInfo.canonOk ChunkInfo.initialCanonSize.
Proof.
  intros Hc Hs. split; [| split; [| split]].
  - revert canonSize Hc. induction Hs as [| size sizes Hsize Hsizes IH];
      intros canonSize Hc; [exact Hc |].
    cbn. unfold ChunkInfo.setCanonSize.
    destruct (Z.eqb_spec size 0); apply IH; [exact Hc |].
    unfold ChunkInfo.canonOk. unfold uint16 in Hsize. lia.
  - clear Hc Hs. revert canonSize.
    induction sizes as [| size sizes IH]; intros canonSize; [reflexivity |].
    cbn [ChunkInfo.setCanonSizes]. unfold ChunkInfo.setCanonSize.
    destruct (Z.eqb_spec size 0) as [-> | Hnz].
    + rewrite IH. rewrite filter_cons_False by (intros H; apply H; reflexivity).
      reflexivity.
    + rewrite IH. rewrite filter_cons_True by exact Hnz.
      destruct (filter (fun size0 : Z => size0 <> 0) sizes) as [| x l] eqn:Hf;
        [reflexivity |].
      change (last (size :: x :: l)) with (last (x :: l)).
      destruct (last (x :: l)) eqn:Hl; [reflexivity |].
      apply last_None in Hl. discriminate.
  - eexists. split; reflexivity.
  - unfold ChunkInfo.canonOk, ChunkInfo.initialCanonSize. lia.
Qed.

Lemma setCanonSize_keeps_nonzero_witness :
  ChunkInfo.setCanonSizes [1400; 0; 512; 0] ChunkInfo.initialCanonSize = 512.
Proof.
  destruct (setCanonSize_keeps_nonzero [1400; 0; 512; 0]
              ChunkInfo.initialCanonSize) as (_ & H & _).
  - unfold ChunkInfo.canonOk, ChunkInfo.initialCanonSize. lia.
  - repeat constructor; unfold uint16; lia.
  - rewrite H. reflexivity.
Defined.

Lemma ctor_OK_inv (canonSize prodIndex prodSize chunkIndex : Z)
    (ci : ChunkInfo.t) :
  ChunkInfo.ctor canonSize prodIndex prodSize chunkIndex = OK ci ->
  ci = ChunkInfo.mk prodIndex prodSize chunkIndex
  /\ (chunkIndex = 0 \/ chunkIndex < ChunkInfo.numChunks canonSize prodSize).
Proof.
  unfold ChunkInfo.ctor. intros H.
  destruct (Z.eqb_spec chunkIndex 0) as [-> | Hnz]; cbn in H.
  - injection H as <-. auto.
  - destruct (Z.geb_spec chunkIndex (ChunkInfo.numChunks canonSize prodSize));
      [discriminate |].
    injection H as <-. split; [reflexivity | right; lia].
Qed.

Lemma getSize_OK_inv (canonSize prodSize chunkIndex n : Z) :
  ChunkInfo.getSize canonSize prodSize chunkIndex = OK n ->
  ChunkInfo.getOffset canonSize chunkIndex < prodSize.
Proof.
  unfold ChunkInfo.getSize.
  destruct (Z.geb_spec (ChunkInfo.getOffset canonSize chunkIndex) prodSize);
    [discriminate | intros _; assumption].
Qed.

Lemma getSize_throws (canonSize prodSize chunkIndex : Z) :
  ChunkInfo.getOffset canonSize chunkIndex >= prodSize ->
  throwsKind (ChunkInfo.getSize canonSize prodSize chunkIndex) KInvalidArgument.
Proof.
  intros H. unfold ChunkInfo.getSize.
  destruct (Z.geb_spec (ChunkInfo.getOffset canonSize chunkIndex) prodSize);
    [| lia].
  eexists. split; reflexivity.
Qed.

(** X3: every ChunkInfo the validating constructor builds either converts to
    [false], in which case it is chunk 0 of an empty product and [getSize]
    throws InvalidArgument for it, or has a size: [getSize] returns a value
    between 1 and the canonical chunk size, and the chunk ends within the
    product. *)
Theorem constructed_chunk_has_size
    (canonSize prodIndex prodSize chunkIndex : Z) (ci : ChunkInfo.t) :
  ChunkInfo.canonOk canonSize -> uint32 prodSize -> uint32 chunkIndex ->
  ChunkInfo.ctor canonSize prodIndex prodSize chunkIndex = OK ci ->
  if ChunkInfo.toBool canonSize ci
  then exists n,
         ChunkInfo.getSize canonSize (ChunkInfo.prodSize ci)
           (ChunkInfo.chunkIndex ci) = OK n
         /\ 1 <= n <= canonSize
         /\ ChunkInfo.getOffset canonSize (ChunkInfo.chunkIndex ci) + n
            <= ChunkInfo.prodSize ci
  else ChunkInfo.prodSize ci = 0 /\ ChunkInfo.chunkIndex ci = 0
       /\ throwsKind
            (ChunkInfo.getSize canonSize (ChunkInfo.prodSize ci)
               (ChunkInfo.chunkIndex ci)) KInvalidArgument.
Proof.
  intros Hc Hs Hi Hctor.
  destruct (ctor_OK_inv _ _ _ _ _ Hctor) as [-> Hlt].
  pose proof (numChunks_le_ceil canonSize Hc prodSize Hs) as Hle.
  cbn [ChunkInfo.prodSize ChunkInfo.chunkIndex] in *.
  unfold ChunkInfo.toBool. cbn [ChunkInfo.prodSize].
  pose proof Hc as Hc'. unfold ChunkInfo.canonOk in Hc'.
  unfold uint32 in Hs, Hi.
  destruct (Z.eqb_spec canonSize 0) as [? | _]; [lia |].
  destruct (Z.eqb_spec prodSize 0) as [-> | Hnz]; cbn [negb andb].
  - split; [reflexivity |].
    assert (chunkIndex = 0) as ->.
    { destruct Hlt as [? | Hlt]; [assumption |].
      unfold ceilDiv in Hle. rewrite Z.div_small in Hle by lia. lia. }
    split; [reflexivity |]. apply getSize_throws.
    pose proof (getOffset_uint32 canonSize 0) as H0. unfold uint32 in H0. lia.
  - assert (0 <= chunkIndex < ceilDiv prodSize canonSize) as Hrange.
    { split; [lia |]. destruct Hlt as [-> | Hlt]; [| lia].
      apply (ceilDiv_bound canonSize Hc); lia. }
    exists (Z.min canonSize (prodSize - chunkIndex * canonSize)).
    split; [apply (getSize_in_range canonSize Hc); [exact Hs | exact Hrange] |].
    destruct Hrange as [_ Hrange].
    apply (ceilDiv_bound canonSize Hc) in Hrange; [| lia].
    rewrite getOffset_exact by nia. lia.
Qed.

Lemma constructed_chunk_has_size_witness :
  exists n, ChunkInfo.getSize 32760 100000 3 = OK n /\ 1 <= n <= 32760
            /\ ChunkInfo.getOffset 32760 3 + n <= 100000.
Proof.
  apply (constructed_chunk_has_size 32760 2 100000 3 (ChunkInfo.mk 2 100000 3)).
  - unfold ChunkInfo.canonOk. lia.
  - unfold uint32. lia.
  - unfold uint32. lia.
  - reflexivity.
Defined.

(** X4: as long as neither the constructor's sum prodSize + canonSize - 1
    nor the offset's product chunkIndex * canonSize exceeds 32 bits, the
    constructor accepts every chunk for which [getSize] returns. *)
Theorem getSize_returns_then_ctor_accepts
    (canonSize prodIndex prodSize chunkIndex n : Z) :
  ChunkInfo.canonOk canonSize -> uint32 prodSize -> uint32 chunkIndex ->
  prodSize + canonSize - 1 < 4294967296 ->
  chunkIndex * canonSize < 4294967296 ->
  ChunkInfo.getSize canonSize prodSize chunkIndex = OK n ->
  ChunkInfo.ctor canonSize prodIndex prodSize chunkIndex
  = OK (ChunkInfo.mk prodIndex prodSize chunkIndex).
Proof.
  intros Hc Hs Hi Hfit Hprod Hsize.
  pose proof (getSize_OK_inv _ _ _ _ Hsize) as Hoff.
  rewrite getOffset_exact in Hoff
    by (unfold ChunkInfo.canonOk in Hc; unfold uint32 in Hi; nia).
  unfold ChunkInfo.ctor.
  rewrite (numChunks_ceil canonSize Hc) by (unfold uint32 in Hs; lia).
  apply (ceilDiv_bound canonSize Hc) in Hoff; [| unfold uint32 in Hs; lia].
  destruct (Z.geb_spec chunkIndex (ceilDiv prodSize canonSize)); [lia |].
  rewrite andb_false_r. reflexivity.
Qed.

Lemma getSize_returns_then_ctor_accepts_witness :
  ChunkInfo.ctor 1400 7 100000 71 = OK (ChunkInfo.mk 7 100000 71).
Proof.
  apply (getSize_returns_then_ctor_accepts 1400 7 100000 71 600).
  - unfold ChunkInfo.canonOk. lia.
  - unfold uint32. lia.
  - unfold uint32. lia.
  - lia.
  - lia.
  - reflexivity.
Defined.

(** X5: the chunks tile the product: every chunk but the last has the
    canonical size and ends where the next one starts, and the last chunk,
    which alone may be shorter, ends at the product's size. *)
Theorem chunks_tile_product (canonSize prodSize chunkIndex : Z) :
  ChunkInfo.canonOk canonSize -> uint32 prodSize ->
  0 <= chunkIndex < ceilDiv prodSize canonSize ->
  exists n,
    ChunkInfo.getSize canonSize prodSize chunkIndex = OK n
    /\ (chunkIndex + 1 < ceilDiv prodSize canonSize ->
        n = canonSize
        /\ ChunkInfo.getOffset canonSize chunkIndex + n
           = ChunkInfo.getOffset canonSize (chunkIndex + 1))
    /\ (chunkIndex + 1 = ceilDiv prodSize canonSize ->
        0 < n <= canonSize
        /\ ChunkInfo.getOffset canonSize chunkIndex + n = prodSize).
Proof.
  intros Hc Hs Hi. pose proof Hc as Hc'. unfold ChunkInfo.canonOk in Hc'.
  exists (Z.min canonSize (prodSize - chunkIndex * canonSize)).
  split; [apply (getSize_in_range canonSize Hc); assumption |].
  unfold uint32 in Hs.
  pose proof (proj1 (ceilDiv_bound canonSize Hc prodSize chunkIndex
                       (proj1 Hs)) (proj2 Hi)) as Hlt.
  rewrite (getOffset_exact canonSize chunkIndex) by nia.
  split.
  - intros Hnext.
    apply (ceilDiv_bound canonSize Hc) in Hnext; [| lia].
    rewrite getOffset_exact by nia. lia.
  - intros Hlast.
    assert (~ (chunkIndex + 1) * canonSize < prodSize) as Hge.
    { intros H. apply (ceilDiv_bound canonSize Hc) in H; lia. }
    lia.
Qed.

Lemma chunks_tile_product_witness :
  exists n, ChunkInfo.getSize 1400 100000 71 = OK n
            /\ (71 + 1 = ceilDiv 100000 1400 ->
                0 < n <= 1400 /\ ChunkInfo.getOffset 1400 71 + n = 100000).
Proof.
  destruct (chunks_tile_product 1400 100000 71) as (n & Hn & _ & Hlast).
  - unfold ChunkInfo.canonOk. lia.
  - unfold uint32. lia.
  - split; [lia | vm_compute; reflexivity].
  - exists n. split; assumption.
Defined.

(** X6: framing of a ChunkInfo inside a longer message: [serialize] appends
    exactly 12 bytes to whatever the encoder holds and reports 12, the
    metadata size of a latent chunk, and [deserialize] of those bytes
    followed by any payload gives back the ChunkInfo and leaves exactly the
    payload. *)
Theorem ChunkInfo_framing (canonSize version prodIndex prodSize chunkIndex : Z)
    (ci : ChunkInfo.t) (encoder : Codec.Encoder) (rest : list Z) :
  uint32 prodIndex -> uint32 prodSize -> uint32 chunkIndex ->
  ChunkInfo.ctor canonSize prodIndex prodSize chunkIndex = OK ci ->
  ChunkInfo.serialize ci encoder version
  = (LatentChunk.getMetadataSize version,
     encoder ++ (ChunkInfo.serialize ci [] version).2)
  /\ length (ChunkInfo.serialize ci [] version).2 = 12%nat
  /\ ChunkInfo.deserialize canonSize
       ((ChunkInfo.serialize ci [] version).2 ++ rest) version
     = OK (ci, rest).
Proof.
  intros Hp Hs Hi Hctor.
  destruct (ctor_OK_inv _ _ _ _ _ Hctor) as [-> _].
  split; [| split].
  - cbn. rewrite <- !app_assoc. reflexivity.
  - reflexivity.
  - unfold ChunkInfo.deserialize.
    rewrite ChunkInfo_ofDecoder_serialize by assumption.
    cbn [mbind result_bind ChunkInfo.prodIndex ChunkInfo.prodSize
         ChunkInfo.chunkIndex].
    rewrite Hctor. reflexivity.
Qed.

Lemma ChunkInfo_framing_witness :
  ChunkInfo.deserialize 32760
    ((ChunkInfo.serialize (ChunkInfo.mk 2 100000 3) [] 0).2 ++ [170; 187]) 0
  = OK (ChunkInfo.mk 2 100000 3, [170; 187]).
Proof.
  apply (ChunkInfo_framing 32760 0 2 100000 3 (ChunkInfo.mk 2 100000 3) []
           [170; 187]).
  - unfold uint32. lia.
  - unfold uint32. lia.
  - unfold uint32. lia.
  - reflexivity.
Defined.

Lemma decode32_uint32 (b0 b1 b2 b3 : Z) :
  isByte b0 -> isByte b1 -> isByte b2 -> isByte b3 ->
  uint32 (((b0 * 256 + b1) * 256 + b2) * 256 + b3)
  /\ (Codec.encode32 (((b0 * 256 + b1) * 256 + b2) * 256 + b3) []).2
     = [b0; b1; b2; b3].
Proof.
  unfold isByte, uint32. intros H0 H1 H2 H3. split; [lia |].
  cbn. repeat f_equal; Z.to_euclidean_division_equations; lia.
Qed.

(** X7: [deserialize] validates what arrives: input shorter than 12 bytes
    throws ShortMessage; whatever the bytes, a ChunkInfo that is returned has
    32-bit fields, satisfies the constructor's check (chunk index 0 or below
    the chunk count), and the input is its serialisation followed by the
    part left unread; longer input either returns or throws
    InvalidArgument. *)
Theorem deserialize_validates (canonSize version : Z) (bytes : list Z) :
  Forall isByte bytes ->
  ((length bytes < 12)%nat ->
     throwsKind (ChunkInfo.deserialize canonSize bytes version) KShortMessage)
  /\ (forall ci rest,
        ChunkInfo.deserialize canonSize bytes version = OK (ci, rest) ->
        uint32 (ChunkInfo.prodIndex ci) /\ uint32 (ChunkInfo.prodSize ci)
        /\ uint32 (ChunkInfo.chunkIndex ci)
        /\ (ChunkInfo.chunkIndex ci = 0
            \/ ChunkInfo.chunkIndex ci
               < ChunkInfo.numChunks canonSize (ChunkInfo.prodSize ci))
        /\ bytes = (ChunkInfo.serialize ci [] version).2 ++ rest)
  /\ ((12 <= length bytes)%nat ->
      (exists ci rest,
         ChunkInfo.deserialize canonSize bytes version = OK (ci, rest))
      \/ throwsKind (ChunkInfo.deserialize canonSize bytes version)
           KInvalidArgument).
Proof.
  intros Hbytes.
  destruct bytes as [| p0 [| p1 [| p2 [| p3 [| s0 [| s1 [| s2 [| s3
    [| i0 [| i1 [| i2 [| i3 rest]]]]]]]]]]]];
    try (split; [intros _; eexists; split; reflexivity |];
         split; [intros ci rest' H; discriminate | cbn; intros H; lia]).
  repeat match goal with
  | H : Forall _ (_ :: _) |- _ => apply Forall_cons in H; destruct H
  end.
  destruct (decode32_uint32 p0 p1 p2 p3) as [Up Ep]; try assumption.
  destruct (decode32_uint32 s0 s1 s2 s3) as [Us Es]; try assumption.
  destruct (decode32_uint32 i0 i1 i2 i3) as [Ui Ei]; try assumption.
  set (p := ((p0 * 256 + p1) * 256 + p2) * 256 + p3) in *.
  set (s := ((s0 * 256 + s1) * 256 + s2) * 256 + s3) in *.
  set (i := ((i0 * 256 + i1) * 256 + i2) * 256 + i3) in *.
  assert (ChunkInfo.deserialize canonSize
            (p0 :: p1 :: p2 :: p3 :: s0 :: s1 :: s2 :: s3
             :: i0 :: i1 :: i2 :: i3 :: rest) version
          = (ci ← ChunkInfo.ctor canonSize p s i; mret (ci, rest))) as Hdes
    by reflexivity.
  rewrite Hdes. clear Hdes.
  split; [cbn; intros Hlen; lia |]. split.
  - intros ci rest' Hdes. apply bind_OK in Hdes as [ci' [Hctor Hdes]].
    unfold mret, result_ret in Hdes. injection Hdes as <- <-.
    destruct (ctor_OK_inv _ _ _ _ _ Hctor) as [-> Hidx].
    cbn [ChunkInfo.prodIndex ChunkInfo.prodSize ChunkInfo.chunkIndex].
    repeat (split; [assumption |]).
    rewrite ChunkInfo_serialize_bytes.
    cbn [ChunkInfo.prodIndex ChunkInfo.prodSize ChunkInfo.chunkIndex].
    rewrite Ep, Es, Ei. reflexivity.
  - intros _. unfold ChunkInfo.ctor.
    destruct (negb (i =? 0) && (i >=? ChunkInfo.numChunks canonSize s)).
    + right. eexists. split; reflexivity.
    + left. eexists _, _. reflexivity.
Qed.

Lemma deserialize_validates_witness :
  throwsKind (ChunkInfo.deserialize 32760 [0; 0; 0; 2; 0; 1] 0) KShortMessage.
Proof.
  destruct (deserialize_validates 32760 0 [0; 0; 0; 2; 0; 1]) as (H & _).
  - repeat constructor; unfold isByte; lia.
  - apply H. cbn. lia.
Defined.

(** ** AddStatus *)

Lemma land_lor_flag (status a b : Z) :
  Z.land a b = 0 -> Z.land (Z.lor status a) b = Z.land status b.
Proof.
  intros H. rewrite Z.land_lor_distr_l, H. apply Z.lor_0_r.
Qed.

Lemma land_lor_same (status a : Z) :
  a <> 0 -> Z.land (Z.lor status a) a <> 0.
Proof.
  intros Ha H. rewrite Z.land_lor_distr_l, Z.land_diag in H.
  apply Z.lor_eq_0_iff in H as [_ H]. contradiction.
Qed.

(** X8: the three flags of an AddStatus are independent: a default status has
    none set, each setter sets its own flag and leaves the other two as they
    were, whatever the status was. *)
Theorem AddStatus_flags_independent (status : AddStatus.t) :
  (AddStatus.isNew AddStatus.init = false
   /\ AddStatus.isComplete AddStatus.init = false
   /\ AddStatus.isDuplicate AddStatus.init = false)
  /\ (AddStatus.isNew (AddStatus.setNew status) = true
      /\ AddStatus.isComplete (AddStatus.setNew status)
         = AddStatus.isComplete status
      /\ AddStatus.isDuplicate (AddStatus.setNew status)
         = AddStatus.isDuplicate status)
  /\ (AddStatus.isComplete (AddStatus.setComplete status) = true
      /\ AddStatus.isNew (AddStatus.setComplete status)
         = AddStatus.isNew status
      /\ AddStatus.isDuplicate (AddStatus.setComplete status)
         = AddStatus.isDuplicate status)
  /\ (AddStatus.isDuplicate (AddStatus.setDuplicate status) = true
      /\ AddStatus.isNew (AddStatus.setDuplicate status)
         = AddStatus.isNew status
      /\ AddStatus.isComplete (AddStatus.setDuplicate status)
         = AddStatus.isComplete status).
Proof.
  unfold AddStatus.isNew, AddStatus.isComplete, AddStatus.isDuplicate,
    AddStatus.setNew, AddStatus.setComplete, AddStatus.setDuplicate,
    AddStatus.IS_NEW, AddStatus.IS_COMPLETE, AddStatus.IS_DUPLICATE.
  split; [repeat split |].
  repeat split;
    try (rewrite land_lor_flag by reflexivity; reflexivity);
    apply negb_true_iff, Z.eqb_neq, land_lor_same; discriminate.
Qed.

(** ** Transmission between two peers *)

Lemma sendAll_sock (msgs : list Transmission.PeerMsg) (impl : Peer.Impl) :
  Transmission.sendAll msgs impl
  = Peer.mkImpl (Peer.version impl)
      (SctpSock.mk (SctpSock.current (Peer.sock impl))
         (SctpSock.pending (Peer.sock impl))
         (SctpSock.sent (Peer.sock impl)
          ++ (Transmission.wire (Peer.version impl) <$> msgs))).
Proof.
  revert impl. induction msgs as [| msg msgs IH]; intros [v [cur pend snt]].
  - cbn. rewrite app_nil_r. reflexivity.
  - unfold Transmission.sendAll in *. cbn [foldl]. rewrite IH.
    destruct msg; cbn; rewrite <- app_assoc; reflexivity.
Qed.

Lemma wire_size (canonSize version : Z) (msg : Transmission.PeerMsg) :
  Transmission.wfMsg canonSize msg ->
  wrap32 (Z.of_nat (length (SctpSock.data (Transmission.wire version msg))))
  <> 0.
Proof.
  intros Hwf. unfold wrap32.
  assert (0 < Z.of_nat (length (SctpSock.data (Transmission.wire version msg)))
          < 4294967296) as Hlen.
  { destruct msg as [info | ci | index | ci | chunk]; cbn in Hwf |- *.
    - destruct Hwf as [Hname _].
      rewrite ?length_app, ?length_fmap, ?length_list_ascii_of_string.
      cbn [length]. lia.
    - lia.
    - lia.
    - lia.
    - destruct Hwf as [_ Hdata]. rewrite ?length_app. cbn [length]. lia. }
  rewrite Z.mod_small by lia. lia.
Qed.

Section Transmission.

Context {A : Type}.
Variable canonSize : Z.
Variable msgRcvr : Peer.PeerMsgRcvr A.
Hypothesis msgRcvr_drains : Transmission.drains msgRcvr.

Lemma chunk_deserialize_valid (version : Z) (ci : ChunkInfo.t) (rest : list Z) :
  Transmission.validChunkInfo canonSize ci ->
  ChunkInfo.deserialize canonSize
    ((ChunkInfo.serialize ci [] version).2 ++ rest) version = OK (ci, rest).
Proof.
  intros (Hp & Hs & Hi & Hctor). unfold ChunkInfo.deserialize.
  rewrite ChunkInfo_ofDecoder_serialize by assumption.
  cbn [mbind result_bind]. rewrite Hctor. reflexivity.
Qed.

(** One pass of the receive loop over the wire form of a message makes the
    corresponding upcall and consumes the message. *)
Lemma receiverBody_wire (version : Z) (msg : Transmission.PeerMsg) (a : A)
    (rest snt : list SctpSock.Msg) :
  Transmission.wfMsg canonSize msg ->
  Peer.receiverBody canonSize msgRcvr
    (a, Peer.mkImpl version
          (SctpSock.mk None (Transmission.wire version msg :: rest) snt))
  = (a' ← Transmission.deliver msgRcvr msg a;
     mret (Peer.Continue
             (a', Peer.mkImpl version (SctpSock.mk None rest snt)))).
Proof.
  intros Hwf.
  pose proof (wire_size canonSize version msg Hwf) as Hsize.
  set (impl := Peer.mkImpl version
                 (SctpSock.mk None (Transmission.wire version msg :: rest) snt)).
  destruct (receiverBody_dispatch canonSize msgRcvr a impl) as [m [Hm ->]];
    [exact Hsize |].
  cbn in Hm. injection Hm as <-.
  change (SctpSock.peek (Peer.sock impl))
    with (SctpSock.mk (Some (Transmission.wire version msg)) rest snt).
  change (Peer.version impl) with version. clear impl Hsize.
  destruct msg as [info | ci | index | ci | chunk];
    cbn [Transmission.wire SctpSock.streamId Transmission.deliver];
    unfold dispatched; cbn [Z.eqb Pos.eqb];
    unfold Channel.recv, Channel.recvChunk;
    cbn [SctpSock.peek SctpSock.current SctpSock.data Transmission.wire].
  - cbn in Hwf.
    rewrite <- (app_nil_r (ProdInfo.serialize info [] version).2).
    rewrite ProdInfo_roundtrip by exact Hwf. reflexivity.
  - cbn in Hwf.
    rewrite <- (app_nil_r (ChunkInfo.serialize ci [] version).2).
    rewrite chunk_deserialize_valid by exact Hwf. reflexivity.
  - cbn in Hwf.
    rewrite <- (app_nil_r (ProdIndex.serialize index [] version).2).
    rewrite ProdIndex_roundtrip by exact Hwf. reflexivity.
  - cbn in Hwf.
    rewrite <- (app_nil_r (ChunkInfo.serialize ci [] version).2).
    rewrite chunk_deserialize_valid by exact Hwf. reflexivity.
  - cbn in Hwf. destruct Hwf as [Hci _].
    rewrite chunk_deserialize_valid by exact Hci.
    cbn [mbind result_bind mret result_ret].
    destruct (Peer.recvData msgRcvr
                (LatentChunk.mk (ActualChunk.getInfo chunk)
                   (Z.of_nat (length (ActualChunk.getData chunk)))) a)
      as [[a' use] | e] eqn:Hup; [| reflexivity].
    cbn [mbind result_bind mret result_ret].
    pose proof (msgRcvr_drains _ _ _ _ Hup) as Huse.
    destruct use; [reflexivity | reflexivity | contradiction].
Qed.

Lemma runReceiver_wire (version : Z) (msgs : list Transmission.PeerMsg) :
  forall (a a' : A) (snt : list SctpSock.Msg),
  Forall (Transmission.wfMsg canonSize) msgs ->
  Transmission.deliverAll msgRcvr msgs a = OK a' ->
  Peer.runReceiver canonSize msgRcvr (S (length msgs))
    (a, Peer.mkImpl version
          (SctpSock.mk None (Transmission.wire version <$> msgs) snt))
  = Some (OK (a', Peer.mkImpl version (SctpSock.mk None [] snt))).
Proof.
  induction msgs as [| msg msgs IH]; intros a a' snt Hwf Hdel.
  - cbn in Hdel. injection Hdel as <-. reflexivity.
  - apply Forall_cons in Hwf as [Hmsg Hmsgs].
    cbn [Transmission.deliverAll] in Hdel.
    apply bind_OK in Hdel as [a1 [Hd1 Hdel]].
    cbn [length fmap list_fmap]. cbn [Peer.runReceiver].
    change (list_fmap _ _ (Transmission.wire version) msgs)
      with (Transmission.wire version <$> msgs).
    rewrite receiverBody_wire by exact Hmsg. rewrite Hd1.
    cbn [mbind result_bind mret result_ret].
    apply IH; assumption.
Qed.

End Transmission.

(** X9: transmission between two peers: whatever sequence of notices,
    requests and chunks one peer sends, with well-formed values and chunk
    payloads of at most 65535 bytes, the receive loop of a peer that finds
    those messages pending, and whose [recvData] consumes every chunk, makes
    the corresponding upcalls with equal values in the order of arrival,
    consumes every message and returns normally when the sender has closed. *)
Theorem peer_transmission_in_order {A : Type} (canonSize version : Z)
    (msgRcvr : Peer.PeerMsgRcvr A) (msgs : list Transmission.PeerMsg)
    (a a' : A) (sender : SctpSock.t) (snt : list SctpSock.Msg) :
  Transmission.drains msgRcvr ->
  Forall (Transmission.wfMsg canonSize) msgs ->
  Transmission.deliverAll msgRcvr msgs a = OK a' ->
  SctpSock.sent sender = [] ->
  Peer.runReceiver canonSize msgRcvr (S (length msgs))
    (a, Peer.mkImpl version
          (SctpSock.mk None
             (SctpSock.sent
                (Peer.sock
                   (Transmission.sendAll msgs (Peer.mkImpl version sender))))
             snt))
  = Some (OK (a', Peer.mkImpl version (SctpSock.mk None [] snt))).
Proof.
  intros Hdrains Hwf Hdel Hsent.
  rewrite sendAll_sock. cbn [Peer.sock Peer.version SctpSock.sent].
  rewrite Hsent. cbn [app].
  apply runReceiver_wire; assumption.
Qed.

Lemma peer_transmission_in_order_witness :
  Peer.runReceiver 32760 (Scenario.recorder LatentChunk.Drained) 3
    ([], Peer.mkImpl 0
           (SctpSock.mk None
              (SctpSock.sent
                 (Peer.sock
                    (Transmission.sendAll
                       [Transmission.ProdNotice Scenario.prodInfo;
                        Transmission.Data
                          (ActualChunk.mk Scenario.chunkInfo [1; 2; 3])]
                       (Peer.mkImpl 0 (SctpSock.mk None [] [])))))
              []))
  = Some (OK ([Scenario.ProdNotice Scenario.prodInfo;
               Scenario.Data (LatentChunk.mk Scenario.chunkInfo 3)],
              Peer.mkImpl 0 (SctpSock.mk None [] []))).
Proof.
  apply (peer_transmission_in_order 32760 0
           (Scenario.recorder LatentChunk.Drained)
           [Transmission.ProdNotice Scenario.prodInfo;
            Transmission.Data (ActualChunk.mk Scenario.chunkInfo [1; 2; 3])]
           [] _ (SctpSock.mk None [] []) []).
  - intros chunk a a' use H. cbn in H. injection H as _ <-. discriminate.
  - repeat constructor; cbn; unfold uint32, uint16; lia.
  - reflexivity.
  - reflexivity.
Defined.

(** X10: two peers of this code interoperate: the message that a peer's
    constructor has sent, found as the head message by another socket, lets
    that socket's Peer construction succeed with the same protocol version,
    consuming that one message and sending one version message itself. *)
Theorem peers_complete_handshake (sockA sockB : SctpSock.t)
    (implB : Peer.Impl) (m : SctpSock.Msg) :
  Peer.ctor sockB = OK implB ->
  last (SctpSock.sent (Peer.sock implB)) = Some m ->
  SctpSock.current (SctpSock.peek sockA) = Some m ->
  exists implA,
    Peer.ctor sockA = OK implA
    /\ Peer.version implA = Peer.version implB
    /\ SctpSock.unconsumed (Peer.sock implA)
       = SctpSock.pending (SctpSock.peek sockA)
    /\ SctpSock.sent (Peer.sock implA) = SctpSock.sent sockA ++ [m].
Proof.
  intros HB Hlast HA.
  assert (Peer.version implB = 0
          /\ m = SctpSock.mkMsg Peer.VERSION_STREAM_ID [0; 0; 0; 0]) as [Hv ->].
  { pose proof (handshake_inv sockB) as H. rewrite HB in H.
    destruct (SctpSock.current (SctpSock.peek sockB)) as [mb |];
      [| destruct H; discriminate].
    destruct (SctpSock.streamId mb =? Peer.VERSION_STREAM_ID); [| discriminate].
    destruct (Codec.decode32 (SctpSock.data mb)) as [[vers d] | e];
      [| discriminate].
    destruct (vers =? 0); [| discriminate].
    injection H as ->. cbn in Hlast |- *. rewrite last_snoc in Hlast.
    injection Hlast as <-. auto. }
  pose proof (handshake_inv sockA) as H. rewrite HA in H. cbn in H.
  eexists. split; [exact H |]. cbn. rewrite Hv. auto.
Qed.

Lemma peers_complete_handshake_witness :
  exists implA,
    Peer.ctor (SctpSock.mk None [SctpSock.mkMsg 0 [0; 0; 0; 0]] []) = OK implA
    /\ Peer.version implA = 0.
Proof.
  destruct (peers_complete_handshake
              (SctpSock.mk None [SctpSock.mkMsg 0 [0; 0; 0; 0]] [])
              (SctpSock.mk None [SctpSock.mkMsg 0 [0; 0; 0; 0]] [])
              (Peer.mkImpl 0
                 (SctpSock.mk None [] [SctpSock.mkMsg 0 [0; 0; 0; 0]]))
              (SctpSock.mkMsg 0 [0; 0; 0; 0]))
    as (implA & H & Hv & _).
  - reflexivity.
  - reflexivity.
  - reflexivity.
  - exists implA. split; [exact H | exact Hv].
Defined.

Lemma dispatched_continue_sock {A : Type} (canonSize : Z)
    (msgRcvr : Peer.PeerMsgRcvr A) (a : A) (v : Z) (sock : SctpSock.t)
    (m : SctpSock.Msg) (sid : Z) (st : A * Peer.Impl) :
  SctpSock.current sock = Some m ->
  dispatched canonSize msgRcvr a v sock sid = OK (Peer.Continue st) ->
  st.2 = Peer.mkImpl v (SctpSock.discard sock).
Proof.
  intros Hm. unfold dispatched.
  repeat match goal with
  | |- context [if ?b =? ?c then _ else _] => destruct (b =? c)
  end; intros H.
  1-4: apply bind_OK in H as [[x sock'] [Hr H]];
       apply recv_sock in Hr; rewrite (peek_current _ _ Hm) in Hr; subst sock';
       apply bind_OK in H as [a' [_ H]]; ok_inj H; reflexivity.
  - apply bind_OK in H as [[chunk sock'] [Hr H]].
    apply recvChunk_sock in Hr as [-> _]. rewrite (peek_current _ _ Hm) in H.
    apply bind_OK in H as [[a' use] [_ H]].
    destruct use; cbn in H; unfold Peer.hasData, SctpSock.hasMessage in H;
      try rewrite Hm in H; cbn in H; try discriminate; ok_inj H; reflexivity.
  - ok_inj H. reflexivity.
Qed.

Lemma unconsumed_peek (sock : SctpSock.t) :
  SctpSock.unconsumed (SctpSock.peek sock) = SctpSock.unconsumed sock.
Proof. destruct sock as [[m |] [| m' rest] snt]; reflexivity. Qed.

(** X11: the receive loop only reads: if no unconsumed message has size zero,
    a normal return leaves nothing unconsumed, and the loop sends nothing and
    keeps the protocol version. *)
Theorem runReceiver_consumes_everything {A : Type} (canonSize : Z)
    (msgRcvr : Peer.PeerMsgRcvr A) (fuel : nat) (a : A) (impl : Peer.Impl)
    (st : A * Peer.Impl) :
  Forall (fun m => wrap32 (Z.of_nat (length (SctpSock.data m))) <> 0)
    (SctpSock.unconsumed (Peer.sock impl)) ->
  Peer.runReceiver canonSize msgRcvr fuel (a, impl) = Some (OK st) ->
  SctpSock.unconsumed (Peer.sock st.2) = []
  /\ SctpSock.sent (Peer.sock st.2) = SctpSock.sent (Peer.sock impl)
  /\ Peer.version st.2 = Peer.version impl.
Proof.
  revert a impl. induction fuel as [| fuel IH]; intros a impl Hne H;
    [discriminate |].
  cbn [Peer.runReceiver] in H.
  destruct (Z.eq_dec (SctpSock.getSize (Peer.sock impl)).1 0) as [Hz | Hnz].
  - rewrite (receiverBody_break canonSize msgRcvr a impl Hz) in H.
    injection H as <-. cbn [snd Peer.sock Peer.version].
    rewrite unconsumed_peek. split; [| split; [| reflexivity]].
    + rewrite <- unconsumed_peek in Hne. unfold SctpSock.getSize in Hz.
      unfold SctpSock.unconsumed in *.
      destruct (SctpSock.current (SctpSock.peek (Peer.sock impl))) as [m |]
        eqn:Hcur.
      * apply Forall_cons in Hne as [Hm _]. cbn in Hz. contradiction.
      * destruct (Peer.sock impl) as [[m |] [| m' rest] snt]; cbn in *;
          congruence.
    + destruct (Peer.sock impl) as [[m |] [| m' rest] snt]; reflexivity.
  - destruct (receiverBody_dispatch canonSize msgRcvr a impl Hnz)
      as [m [Hm Hb]].
    rewrite Hb in H.
    destruct (dispatched canonSize msgRcvr a (Peer.version impl)
                (SctpSock.peek (Peer.sock impl)) (SctpSock.streamId m))
      as [[st1 | st1] | e] eqn:Hd.
    + exfalso. exact (dispatched_not_break _ _ _ _ _ _ _ Hd).
    + pose proof (dispatched_continue_sock _ _ _ _ _ _ _ _ Hm Hd) as Hst1.
      destruct st1 as [a1 impl1]. cbn in Hst1. subst impl1.
      assert (Forall
                (fun m => wrap32 (Z.of_nat (length (SctpSock.data m))) <> 0)
                (SctpSock.unconsumed
                   (SctpSock.discard (SctpSock.peek (Peer.sock impl)))))
        as Hne1.
      { rewrite <- unconsumed_peek in Hne.
        unfold SctpSock.unconsumed in Hne |- *. rewrite Hm in Hne.
        apply Forall_cons in Hne as [_ Hne]. exact Hne. }
      destruct (IH a1
                  (Peer.mkImpl (Peer.version impl)
                     (SctpSock.discard (SctpSock.peek (Peer.sock impl))))
                  Hne1 H) as (H1 & H2 & H3).
      split; [exact H1 |]. split; [| exact H3].
      rewrite H2. cbn.
      destruct (Peer.sock impl) as [[m0 |] [| m' rest] snt]; reflexivity.
    + discriminate.
Qed.

Lemma runReceiver_consumes_everything_witness :
  SctpSock.unconsumed
    (Peer.sock
       ([Scenario.ProdRequest 2], Peer.mkImpl 0 (SctpSock.mk None [] [])).2)
  = [].
Proof.
  apply (runReceiver_consumes_everything 32760
           (Scenario.recorder LatentChunk.Drained) 3 []
           (Peer.mkImpl 0
              (SctpSock.mk None
                 [SctpSock.mkMsg 9 [1]; SctpSock.mkMsg 3 [0; 0; 0; 2]] []))
           ([Scenario.ProdRequest 2], Peer.mkImpl 0 (SctpSock.mk None [] []))).
  - repeat constructor; vm_compute; discriminate.
  - reflexivity.
Defined.

Section ReceiverLog.

Context {A : Type}.
Variable canonSize : Z.
Variable msgRcvr : Peer.PeerMsgRcvr A.

(** Without the record, the recording loop is the receive loop. *)
Lemma receiverBodyLog_result (st : A * Peer.Impl) :
  (Peer.receiverBodyLog canonSize msgRcvr st).2
  = Peer.receiverBody canonSize msgRcvr st.
Proof.
  destruct st as [a impl]. unfold Peer.receiverBodyLog, Peer.receiverBody.
  destruct (SctpSock.getSize (Peer.sock impl)) as [size sock0].
  destruct (size =? 0); [reflexivity |].
  destruct (SctpSock.getStreamId sock0) as [[sid sock1] | e]; [| reflexivity].
  cbn [mbind result_bind].
  repeat match goal with
  | |- context [if ?b =? ?c then _ else _] => destruct (b =? c)
  end;
  try match goal with
  | |- context [Channel.recv ?d ?v ?s] =>
      destruct (Channel.recv d v s) as [[? ?] | ?]
  | |- context [Channel.recvChunk ?c ?v ?s] =>
      destruct (Channel.recvChunk c v s) as [[? ?] | ?]
  end; reflexivity.
Qed.

Lemma runReceiverLog_result (fuel : nat) (st : A * Peer.Impl) :
  (Peer.runReceiverLog canonSize msgRcvr fuel st).2
  = Peer.runReceiver canonSize msgRcvr fuel st.
Proof.
  revert st. induction fuel as [| fuel IH]; intros st; [reflexivity |].
  cbn [Peer.runReceiverLog Peer.runReceiver].
  rewrite <- receiverBodyLog_result.
  destruct (Peer.receiverBodyLog canonSize msgRcvr st)
    as [log [[st' | st'] | e]]; cbn [snd]; try reflexivity.
  rewrite <- IH.
  destruct (Peer.runReceiverLog canonSize msgRcvr fuel st') as [later r].
  reflexivity.
Qed.

Hypothesis msgRcvr_drains : Transmission.drains msgRcvr.

(** One pass over the wire form of a message makes exactly the corresponding
    upcall. *)
Lemma receiverBodyLog_wire (version : Z) (msg : Transmission.PeerMsg) (a : A)
    (rest snt : list SctpSock.Msg) :
  Transmission.wfMsg canonSize msg ->
  Peer.receiverBodyLog canonSize msgRcvr
    (a, Peer.mkImpl version
          (SctpSock.mk None (Transmission.wire version msg :: rest) snt))
  = ([Transmission.upcall msg],
     a' ← Transmission.deliver msgRcvr msg a;
     mret (Peer.Continue
             (a', Peer.mkImpl version (SctpSock.mk None rest snt)))).
Proof.
  intros Hwf.
  pose proof (receiverBody_wire canonSize msgRcvr msgRcvr_drains version msg a
                rest snt Hwf) as Hres.
  rewrite <- receiverBodyLog_result in Hres.
  pose proof (wire_size canonSize version msg Hwf) as Hsize.
  rewrite <- Hres. clear Hres.
  unfold Peer.receiverBodyLog.
  cbn [Peer.sock Peer.version SctpSock.getSize SctpSock.peek SctpSock.current
       SctpSock.pending SctpSock.sent SctpSock.getStreamId].
  destruct (Z.eqb_spec
              (wrap32 (Z.of_nat
                 (length (SctpSock.data (Transmission.wire version msg))))) 0)
    as [Hz | _]; [contradiction |].
  unfold Channel.recv, Channel.recvChunk.
  destruct msg as [info | ci | index | ci | chunk];
    cbn [Transmission.wire SctpSock.streamId SctpSock.data Z.eqb Pos.eqb
         Peer.PROD_NOTICE_STREAM_ID Peer.CHUNK_NOTICE_STREAM_ID
         Peer.PROD_REQ_STREAM_ID Peer.CHUNK_REQ_STREAM_ID
         Peer.CHUNK_STREAM_ID SctpSock.peek SctpSock.current
         Transmission.upcall];
    cbn in Hwf.
  - rewrite <- (app_nil_r (ProdInfo.serialize info [] version).2).
    rewrite ProdInfo_roundtrip by exact Hwf. reflexivity.
  - rewrite <- (app_nil_r (ChunkInfo.serialize ci [] version).2).
    rewrite (chunk_deserialize_valid canonSize) by exact Hwf. reflexivity.
  - rewrite <- (app_nil_r (ProdIndex.serialize index [] version).2).
    rewrite ProdIndex_roundtrip by exact Hwf. reflexivity.
  - rewrite <- (app_nil_r (ChunkInfo.serialize ci [] version).2).
    rewrite (chunk_deserialize_valid canonSize) by exact Hwf. reflexivity.
  - destruct Hwf as [Hci _].
    rewrite (chunk_deserialize_valid canonSize) by exact Hci. reflexivity.
Qed.

End ReceiverLog.

(** X12: an exception ends the receive loop: if the upcalls for the first
    messages return and the upcall for the next message throws, the loop
    throws that same exception, and the upcalls it has made are those for
    these messages, in order, the throwing one last: it makes no upcall for
    any message pending behind, whatever those messages are. *)
Theorem runReceiver_upcall_exception {A : Type} (canonSize version : Z)
    (msgRcvr : Peer.PeerMsgRcvr A) (before : list Transmission.PeerMsg)
    (msg : Transmission.PeerMsg) (later snt : list SctpSock.Msg)
    (a a1 : A) (e : Exn) (fuel : nat) :
  Transmission.drains msgRcvr ->
  Forall (Transmission.wfMsg canonSize) (before ++ [msg]) ->
  Transmission.deliverAll msgRcvr before a = OK a1 ->
  Transmission.deliver msgRcvr msg a1 = Throw e ->
  (length before < fuel)%nat ->
  Peer.runReceiverLog canonSize msgRcvr fuel
    (a, Peer.mkImpl version
          (SctpSock.mk None
             ((Transmission.wire version <$> (before ++ [msg])) ++ later) snt))
  = (Transmission.upcall <$> (before ++ [msg]), Some (Throw e))
  /\ Peer.runReceiver canonSize msgRcvr fuel
       (a, Peer.mkImpl version
             (SctpSock.mk None
                ((Transmission.wire version <$> (before ++ [msg])) ++ later)
                snt))
     = Some (Throw e).
Proof.
  intros Hdrains Hwf Hbefore Hthrow Hfuel.
  assert (Peer.runReceiverLog canonSize msgRcvr fuel
            (a, Peer.mkImpl version
                  (SctpSock.mk None
                     ((Transmission.wire version <$> (before ++ [msg]))
                      ++ later) snt))
          = (Transmission.upcall <$> (before ++ [msg]), Some (Throw e)))
    as Hlog.
  { revert a fuel Hbefore Hfuel Hwf.
    induction before as [| m before IH]; intros a fuel Hbefore Hfuel Hwf;
      (destruct fuel as [| fuel]; [cbn in Hfuel; lia |]);
      apply Forall_cons in Hwf as [Hm Hwf];
      cbn [app fmap list_fmap length Peer.runReceiverLog].
    - cbn in Hbefore. injection Hbefore as ->.
      rewrite (receiverBodyLog_wire canonSize msgRcvr Hdrains) by exact Hm.
      rewrite Hthrow. reflexivity.
    - cbn [Transmission.deliverAll] in Hbefore.
      apply bind_OK in Hbefore as [a0 [Hd Hbefore]].
      rewrite (receiverBodyLog_wire canonSize msgRcvr Hdrains) by exact Hm.
      rewrite Hd. cbn [mbind result_bind mret result_ret].
      change (list_fmap _ _ (Transmission.wire version) (before ++ [msg]))
        with (Transmission.wire version <$> (before ++ [msg])).
      rewrite (IH a0 fuel Hbefore) by (cbn in Hfuel; lia || exact Hwf).
      reflexivity. }
  split; [exact Hlog |].
  rewrite <- runReceiverLog_result, Hlog. reflexivity.
Qed.

Lemma runReceiver_upcall_exception_witness :
  Peer.runReceiverLog 32760
    (Peer.mkRcvr unit (fun _ a => OK a) (fun _ a => OK a)
       (fun _ _ => Throw (RuntimeError "no such product"))
       (fun _ a => OK a)
       (fun _ a => OK (a, LatentChunk.Discarded))) 5
    (tt, Peer.mkImpl 0
           (SctpSock.mk None
              ((Transmission.wire 0
                  <$> ([Transmission.ChunkNotice Scenario.chunkInfo]
                       ++ [Transmission.ProdRequest 2]))
               ++ [SctpSock.mkMsg 4 [0; 0; 0; 2; 0; 1; 134; 160; 0; 0; 0; 3]])
              []))
  = ([Peer.RecvNoticeChunk Scenario.chunkInfo; Peer.RecvRequestProd 2],
     Some (Throw (RuntimeError "no such product"))).
Proof.
  apply (runReceiver_upcall_exception 32760 0 _
           [Transmission.ChunkNotice Scenario.chunkInfo]
           (Transmission.ProdRequest 2) _ [] tt tt _ 5).
  - intros chunk a a' use H. cbn in H. injection H as _ <-. discriminate.
  - repeat constructor; cbn; unfold uint32; lia.
  - reflexivity.
  - reflexivity.
  - cbn. lia.
Defined.

(** ** Multicast transmission *)

Section McastTransmission.

Context {A : Type}.
Variable canonSize : Z.
Variable version : Z.
Variable msgRcvr : McastReceiver.McastContentRcvr A.
Hypothesis msgRcvr_drains : McastTransmission.drains msgRcvr.

Lemma mcast_receiverBody_datagram (msg : McastTransmission.McastMsg) (a : A)
    (rest : list (list Z)) :
  McastTransmission.wfMsg canonSize msg ->
  McastReceiver.receiverBody canonSize version msgRcvr
    (a, McastReceiver.mkDec None
          (McastTransmission.datagram version msg :: rest))
  = (a' ← McastTransmission.deliver msgRcvr msg a;
     mret (McastReceiver.Next (a', McastReceiver.mkDec None rest))).
Proof.
  intros Hwf.
  destruct msg as [info | chunk];
    unfold McastReceiver.receiverBody;
    cbn [McastReceiver.fill McastReceiver.current McastReceiver.pending
         McastTransmission.datagram McastReceiver.decode Codec.decode8
         mbind result_bind mret result_ret McastReceiver.prodInfoMsgId
         McastReceiver.chunkMsgId Z.eqb Pos.eqb McastTransmission.deliver].
  - cbn in Hwf.
    rewrite <- (app_nil_r (ProdInfo.serialize info [] version).2).
    rewrite ProdInfo_roundtrip by exact Hwf.
    cbn [mbind result_bind mret result_ret].
    destruct (McastReceiver.receiveProd msgRcvr info a); reflexivity.
  - cbn in Hwf. unfold McastReceiver.deserializeChunk.
    cbn [McastReceiver.decode McastReceiver.current McastReceiver.pending].
    rewrite (chunk_deserialize_valid canonSize) by exact Hwf.
    cbn [mbind result_bind mret result_ret McastReceiver.current
         McastReceiver.pending default from_option id].
    destruct (McastReceiver.receiveChunk msgRcvr
                (LatentChunk.mk (ActualChunk.getInfo chunk)
                   (Z.of_nat (length (ActualChunk.getData chunk)))) a)
      as [[a' use] | e] eqn:Hup; [| reflexivity].
    cbn [mbind result_bind mret result_ret].
    pose proof (msgRcvr_drains _ _ _ _ Hup) as Huse.
    destruct use; [reflexivity | reflexivity | contradiction].
Qed.

End McastTransmission.

(** X13: multicast reception: for every sequence of datagrams that carry
    well-formed ProdInfos and chunks, a receiver whose chunk upcall consumes
    every chunk is handed each ProdInfo and each chunk, with its information
    and payload size, in the order of arrival; the loop then stays blocked
    with nothing unread, and an exception from an upcall ends the loop with
    that exception. *)
Theorem mcast_reception_in_order {A : Type} (canonSize version : Z)
    (msgRcvr : McastReceiver.McastContentRcvr A)
    (msgs : list McastTransmission.McastMsg) (a : A) :
  McastTransmission.drains msgRcvr ->
  Forall (McastTransmission.wfMsg canonSize) msgs ->
  McastReceiver.run canonSize version msgRcvr (S (length msgs))
    (a, McastReceiver.mkDec None
          (McastTransmission.datagram version <$> msgs))
  = Some
      match McastTransmission.deliverAll msgRcvr msgs a with
      | OK a' => McastReceiver.Waiting (a', McastReceiver.mkDec None [])
      | Throw e => McastReceiver.Threw e
      end.
Proof.
  intros Hdrains Hwf. revert a.
  induction Hwf as [| msg msgs Hmsg Hmsgs IH]; intros a; [reflexivity |].
  cbn [McastTransmission.deliverAll length fmap list_fmap].
  cbn [McastReceiver.run].
  change (list_fmap _ _ (McastTransmission.datagram version) msgs)
    with (McastTransmission.datagram version <$> msgs).
  rewrite (mcast_receiverBody_datagram canonSize version msgRcvr Hdrains)
    by exact Hmsg.
  destruct (McastTransmission.deliver msgRcvr msg a) as [a1 | e1];
    cbn [mbind result_bind mret result_ret]; [apply IH | reflexivity].
Qed.

Lemma mcast_reception_in_order_witness :
  McastReceiver.run 32760 0 (Scenario.mcastRecorder LatentChunk.Drained) 3
    ([], McastReceiver.mkDec None
           (McastTransmission.datagram 0
              <$> [McastTransmission.ProdInfoMsg Scenario.prodInfo;
                   McastTransmission.ChunkMsg
                     (ActualChunk.mk Scenario.chunkInfo [1; 2; 3])]))
  = Some (McastReceiver.Waiting
            ([Scenario.ProdNotice Scenario.prodInfo;
              Scenario.Data (LatentChunk.mk Scenario.chunkInfo 3)],
             McastReceiver.mkDec None [])).
Proof.
  apply (mcast_reception_in_order 32760 0
           (Scenario.mcastRecorder LatentChunk.Drained)
           [McastTransmission.ProdInfoMsg Scenario.prodInfo;
            McastTransmission.ChunkMsg
              (ActualChunk.mk Scenario.chunkInfo [1; 2; 3])] []).
  - intros chunk a a' use H. cbn in H. injection H as _ <-. discriminate.
  - repeat constructor; cbn; unfold uint32, uint16; lia.
Defined.

(** ** Internet socket addresses *)

(** X14: the ordering of Internet socket addresses is the lexicographic one:
    if the orderings of addresses and of ports are strict total orders and
    their equalities are identity, then [operator<] is irreflexive,
    asymmetric and transitive, two socket addresses are unordered exactly
    when [operator==] holds, and equal socket addresses have equal hashes. *)
Theorem InetSockAddr_order {Addr Port : Type}
    (ltAddr eqAddr : Addr -> Addr -> bool) (ltPort eqPort : Port -> Port -> bool)
    (hashAddr : Addr -> Z) (hashPort : Port -> Z)
    (a b c : InetSockAddr.Impl Addr Port) :
  (forall x y, eqAddr x y = true <-> x = y) ->
  (forall x y, eqPort x y = true <-> x = y) ->
  (forall x, ltAddr x x = false) ->
  (forall x y z, ltAddr x y = true -> ltAddr y z = true -> ltAddr x z = true) ->
  (forall x y, ltAddr x y = false -> ltAddr y x = false -> x = y) ->
  (forall x, ltPort x x = false) ->
  (forall x y z, ltPort x y = true -> ltPort y z = true -> ltPort x z = true) ->
  (forall x y, ltPort x y = false -> ltPort y x = false -> x = y) ->
  InetSockAddr.ltb ltAddr eqAddr ltPort a a = false
  /\ (InetSockAddr.ltb ltAddr eqAddr ltPort a b = true ->
      InetSockAddr.ltb ltAddr eqAddr ltPort b a = false)
  /\ (InetSockAddr.ltb ltAddr eqAddr ltPort a b = true ->
      InetSockAddr.ltb ltAddr eqAddr ltPort b c = true ->
      InetSockAddr.ltb ltAddr eqAddr ltPort a c = true)
  /\ (InetSockAddr.ltb ltAddr eqAddr ltPort a b = false
      /\ InetSockAddr.ltb ltAddr eqAddr ltPort b a = false
      <-> InetSockAddr.eqb eqAddr eqPort a b = true)
  /\ (InetSockAddr.eqb eqAddr eqPort a b = true ->
      InetSockAddr.hash hashAddr hashPort a
      = InetSockAddr.hash hashAddr hashPort b).
Proof.
  intros HeqA HeqP HirrA HtrA HtotA HirrP HtrP HtotP.
  assert (forall x, eqAddr x x = true) as HreflA by (intros x; apply HeqA; reflexivity).
  assert (forall x, eqPort x x = true) as HreflP by (intros x; apply HeqP; reflexivity).
  assert (forall x y, ltAddr x y = true -> ltAddr y x = false) as HasA.
  { intros x y Hxy. destruct (ltAddr y x) eqn:Hyx; [| reflexivity].
    rewrite <- (HirrA x). symmetry. exact (HtrA x y x Hxy Hyx). }
  assert (forall x y, ltPort x y = true -> ltPort y x = false) as HasP.
  { intros x y Hxy. destruct (ltPort y x) eqn:Hyx; [| reflexivity].
    rewrite <- (HirrP x). symmetry. exact (HtrP x y x Hxy Hyx). }
  destruct a as [aa pa], b as [ab pb], c as [ac pc].
  unfold InetSockAddr.ltb, InetSockAddr.eqb, InetSockAddr.hash. cbn.
  split; [| split; [| split; [| split]]].
  - rewrite HirrA, HirrP, andb_false_r. reflexivity.
  - destruct (ltAddr aa ab) eqn:Hab.
    + intros _. rewrite (HasA _ _ Hab).
      destruct (eqAddr ab aa) eqn:He; [| reflexivity].
      apply HeqA in He. subst. rewrite HirrA in Hab. discriminate.
    + intros [He Hp]%andb_true_iff. apply HeqA in He. subst ab.
      rewrite HirrA, HreflA, (HasP _ _ Hp). reflexivity.
  - destruct (ltAddr aa ab) eqn:Hab.
    + intros _. destruct (ltAddr ab ac) eqn:Hbc.
      * intros _. rewrite (HtrA _ _ _ Hab Hbc). reflexivity.
      * intros [He _]%andb_true_iff. apply HeqA in He. subst ac.
        rewrite Hab. reflexivity.
    + intros [He Hp]%andb_true_iff. apply HeqA in He. subst ab.
      destruct (ltAddr aa ac) eqn:Hac; [reflexivity |].
      intros [He Hq]%andb_true_iff. rewrite He, (HtrP _ _ _ Hp Hq).
      reflexivity.
  - split.
    + intros [H1 H2].
      destruct (ltAddr aa ab) eqn:Hab; [discriminate |].
      destruct (ltAddr ab aa) eqn:Hba; [discriminate |].
      pose proof (HtotA _ _ Hab Hba) as ->.
      rewrite HreflA in H1, H2 |- *. cbn in H1, H2 |- *.
      apply HeqP. exact (HtotP _ _ H1 H2).
    + intros [He Hp]%andb_true_iff. apply HeqA in He. apply HeqP in Hp.
      subst. rewrite HirrA, HirrP, andb_false_r. auto.
  - intros [He Hp]%andb_true_iff. apply HeqA in He. apply HeqP in Hp.
    subst. reflexivity.
Qed.

Lemma InetSockAddr_order_witness :
  InetSockAddr.ltb Z.ltb Z.eqb Z.ltb (InetSockAddr.mkImpl 5 80)
    (InetSockAddr.mkImpl 5 80) = false.
Proof.
  destruct (InetSockAddr_order Z.ltb Z.eqb Z.ltb Z.eqb (fun x => x)
              (fun x => x) (InetSockAddr.mkImpl 5 80)
              (InetSockAddr.mkImpl 5 80) (InetSockAddr.mkImpl 5 80))
    as [H _]; [| | | | | | | | exact H].
  - intros x y. apply Z.eqb_eq.
  - intros x y. apply Z.eqb_eq.
  - intros x. apply Z.ltb_irrefl.
  - intros x y z Hxy Hyz. apply Z.ltb_lt in Hxy, Hyz. apply Z.ltb_lt. lia.
  - intros x y Hxy Hyx. apply Z.ltb_ge in Hxy, Hyx. lia.
  - intros x. apply Z.ltb_irrefl.
  - intros x y z Hxy Hyz. apply Z.ltb_lt in Hxy, Hyz. apply Z.ltb_lt. lia.
  - intros x y Hxy Hyx. apply Z.ltb_ge in Hxy, Hyx. lia.
Defined.

Lemma tryEach_all_rejected {SockAddr : Type} (attempt : SockAddr -> bool)
    (failure : string) (set : list SockAddr) :
  Forall (fun x => attempt x = false) set ->
  InetSockAddr.tryEach attempt failure set
  = (Throw (SystemError failure), set).
Proof.
  induction 1 as [| x set Hx Hset IH]; [reflexivity |].
  cbn. rewrite Hx, IH. reflexivity.
Qed.

Lemma tryEach_first_accepted {SockAddr : Type} (attempt : SockAddr -> bool)
    (failure : string) (before after : list SockAddr) (x : SockAddr) :
  Forall (fun x => attempt x = false) before -> attempt x = true ->
  InetSockAddr.tryEach attempt failure (before ++ x :: after)
  = (OK tt, before ++ [x]).
Proof.
  intros Hbefore Hx. induction Hbefore as [| y before Hy Hbefore IH].
  - cbn. rewrite Hx. reflexivity.
  - cbn. rewrite Hy, IH. reflexivity.
Qed.

(** X15: [connect] and [bind] of the earlier implementation try the
    candidate addresses in order and stop at the first on which the system
    call succeeds: they return normally if and only if some candidate is
    accepted, having tried exactly the candidates up to and including the
    first accepted one; otherwise, in particular for an empty candidate set,
    they throw a system error after trying every candidate. *)
Theorem connect_tries_until_success {SockAddr : Type}
    (attempt : SockAddr -> bool) (set : list SockAddr) :
  ((exists x, x ∈ set /\ attempt x = true) ->
   exists before x after,
     set = before ++ x :: after
     /\ Forall (fun y => attempt y = false) before /\ attempt x = true
     /\ InetSockAddr.connect attempt set = (OK tt, before ++ [x])
     /\ InetSockAddr.bind attempt set = (OK tt, before ++ [x]))
  /\ (Forall (fun y => attempt y = false) set ->
      InetSockAddr.connect attempt set
      = (Throw (SystemError "connect() failure"), set)
      /\ InetSockAddr.bind attempt set
         = (Throw (SystemError "bind() failure"), set))
  /\ ((InetSockAddr.connect attempt set).1 = OK tt
      <-> exists x, x ∈ set /\ attempt x = true).
Proof.
  assert ((exists x, x ∈ set /\ attempt x = true) ->
          exists before x after,
            set = before ++ x :: after
            /\ Forall (fun y => attempt y = false) before
            /\ attempt x = true) as Hsplit.
  { induction set as [| y set IH]; intros (x & Hin & Hx).
    - apply elem_of_nil in Hin. contradiction.
    - destruct (attempt y) eqn:Hy.
      + exists [], y, set. auto.
      + apply elem_of_cons in Hin as [Heq | Hin];
          [subst; rewrite Hy in Hx; discriminate |].
        destruct IH as (before & z & after & -> & Hb & Hz); [eauto |].
        exists (y :: before), z, after. auto. }
  split; [| split].
  - intros H. destruct (Hsplit H) as (before & x & after & -> & Hb & Hx).
    exists before, x, after. unfold InetSockAddr.connect, InetSockAddr.bind.
    rewrite !tryEach_first_accepted by assumption. auto.
  - intros H. unfold InetSockAddr.connect, InetSockAddr.bind.
    rewrite !tryEach_all_rejected by assumption. auto.
  - split.
    + intros Hok.
      destruct (decide (Forall (fun y => attempt y = false) set)) as [Hall | Hn].
      * unfold InetSockAddr.connect in Hok.
        rewrite tryEach_all_rejected in Hok by assumption. discriminate.
      * apply not_Forall_Exists in Hn; [| intros y; apply _].
        apply Exists_exists in Hn as (x & Hin & Hx).
        exists x. split; [exact Hin |]. apply not_false_iff_true. exact Hx.
    + intros H. destruct (Hsplit H) as (before & x & after & -> & Hb & Hx).
      unfold InetSockAddr.connect.
      rewrite tryEach_first_accepted by assumption. reflexivity.
Qed.

Lemma list_ascii_of_string_app (s1 s2 : string) :
  String.list_ascii_of_string (s1 +:+ s2)
  = String.list_ascii_of_string s1 ++ String.list_ascii_of_string s2.
Proof.
  induction s1 as [| c s1 IH]; [reflexivity |].
  change (String c s1 +:+ s2) with (String c (s1 +:+ s2)).
  cbn [String.list_ascii_of_string]. rewrite IH. reflexivity.
Qed.

Lemma list_ascii_of_string_inj (s1 s2 : string) :
  String.list_ascii_of_string s1 = String.list_ascii_of_string s2 -> s1 = s2.
Proof.
  intros H. rewrite <- (String.string_of_list_ascii_of_string s1),
    <- (String.string_of_list_ascii_of_string s2), H. reflexivity.
Qed.

Lemma split_at_last (c : ascii) (l1 l2 r1 r2 : list ascii) :
  existsb (Ascii.eqb c) r1 = false -> existsb (Ascii.eqb c) r2 = false ->
  l1 ++ c :: r1 = l2 ++ c :: r2 -> l1 = l2 /\ r1 = r2.
Proof.
  intros H1 H2. revert l2.
  induction l1 as [| x l1 IH]; intros [| y l2] Heq; cbn in Heq.
  - injection Heq as ->. auto.
  - injection Heq as <- ->. rewrite existsb_app in H1. cbn in H1.
    rewrite Ascii.eqb_refl, orb_true_r in H1. discriminate.
  - injection Heq as -> <-. rewrite existsb_app in H2. cbn in H2.
    rewrite Ascii.eqb_refl, orb_true_r in H2. discriminate.
  - injection Heq as -> Heq. destruct (IH l2 Heq) as [-> ->]. auto.
Qed.

(** X16: the text of an Internet socket address determines the address and
    the port: an address with a colon is put in brackets, and as long as the
    port's text has no colon, two socket addresses with the same text have
    the same address text and the same port text. *)
Theorem to_string_injective (addr1 port1 addr2 port2 : string) :
  InetSockAddr.hasColon port1 = false ->
  InetSockAddr.hasColon port2 = false ->
  InetSockAddr.to_string addr1 port1 = InetSockAddr.to_string addr2 port2 ->
  addr1 = addr2 /\ port1 = port2.
Proof.
  unfold InetSockAddr.hasColon. intros Hp1 Hp2 Heq.
  apply (f_equal String.list_ascii_of_string) in Heq.
  unfold InetSockAddr.to_string, InetSockAddr.hasColon in Heq.
  assert (forall (b : bool) (addr port : string),
    String.list_ascii_of_string
      (if b then addr +:+ ":" +:+ port else "[" +:+ addr +:+ "]:" +:+ port)
    = (if b then String.list_ascii_of_string addr
       else "["%char :: String.list_ascii_of_string addr ++ ["]"%char])
      ++ ":"%char :: String.list_ascii_of_string port) as Hform.
  { intros b addr port; destruct b; rewrite !list_ascii_of_string_app; cbn;
      rewrite <- ?app_assoc; reflexivity. }
  rewrite !Hform in Heq. clear Hform.
  apply split_at_last in Heq as [Hl Hr]; [| assumption | assumption].
  apply list_ascii_of_string_inj in Hr. split; [| exact Hr].
  apply list_ascii_of_string_inj.
  remember (String.list_ascii_of_string addr1) as a1 eqn:Ea1.
  remember (String.list_ascii_of_string addr2) as a2 eqn:Ea2.
  clear Ea1 Ea2.
  destruct (existsb (Ascii.eqb ":"%char) a1) eqn:H1;
    destruct (existsb (Ascii.eqb ":"%char) a2) eqn:H2; cbn in Hl.
  - injection Hl as Hl. apply app_inv_tail in Hl. exact Hl.
  - rewrite <- Hl in H2. cbn in H2. rewrite existsb_app, H1 in H2.
    discriminate.
  - rewrite Hl in H1. cbn in H1. rewrite existsb_app, H2 in H1.
    discriminate.
  - exact Hl.
Qed.

Lemma to_string_injective_witness :
  InetSockAddr.to_string "::1" "38800" = "[::1]:38800"%string
  /\ ("::1"%string = "::1"%string /\ "38800"%string = "38800"%string).
Proof.
  split; [reflexivity |].
  apply (to_string_injective "::1" "38800" "::1" "38800"); reflexivity.
Defined.
